(** * advanced_logging: the core of the logging layer, embedded and verified

    The development follows the Python sources under [advanced_logging/core]:
    - [handlers.py]: [PostgreSQLConfig] and [PostgreSQLHandler] (bounded queue,
      batch writer, connection recovery, counters);
    - [filters.py]: [EnvironmentFilter] and [SensitiveDataFilter];
    - [formatters.py]: [ColoredFormatter] and [JSONFormatter];
    - [logger.py]: [LogConfig] and the [LoggerManager] registry.

    Python integers are [Z], Python floats are IEEE-754 binary64 numbers
    ([float]), text is [string] read as a sequence of code points below 256,
    dictionaries keyed by strings are [gmap string _].  Methods that mutate
    [self] and may raise are functions in a state-and-exception monad: the
    state reached when an exception is raised is kept, as in Python. *)

From Stdlib Require Import ZArith List String Ascii Bool Lia Floats.
From stdpp Require Import base gmap strings list.

Local Open Scope Z_scope.

(** ** Exceptions and the monad of methods *)

Inductive exn : Set :=
| Full            (* queue.Full *)
| Empty           (* queue.Empty *)
| ValueError
| ImportError
| AttributeError
| OSError
| ConnectError    (* the Exception raised by [_connect] *)
| DatabaseError.  (* any exception of the driver while writing *)

Inductive outcome (A : Type) : Type :=
| Ok (a : A)
| Raise (e : exn).
Arguments Ok {A} a.
Arguments Raise {A} e.

Definition M (S A : Type) : Type := S -> outcome A * S.

Definition ret {S A} (a : A) : M S A := fun s => (Ok a, s).

Definition bind {S A B} (m : M S A) (k : A -> M S B) : M S B :=
  fun s => match m s with
           | (Ok a, s') => k a s'
           | (Raise e, s') => (Raise e, s')
           end.

Definition raise {S A} (e : exn) : M S A := fun s => (Raise e, s).

Definition get_self {S} : M S S := fun s => (Ok s, s).

Definition update {S} (f : S -> S) : M S unit := fun s => (Ok tt, f s).

(** [try: body except e: handler e]; the handler runs in the state the body
    left behind. *)
Definition try_except {S A} (body : M S A) (handler : exn -> M S A) : M S A :=
  fun s => match body s with
           | (Ok a, s') => (Ok a, s')
           | (Raise e, s') => handler e s'
           end.

Declare Scope py_scope.
Delimit Scope py_scope with py.
Notation "x <- c1 ;; c2" := (bind c1 (fun x => c2))
  (at level 100, c1 at next level, right associativity) : py_scope.
Notation "c1 ;; c2" := (bind c1 (fun _ => c2))
  (at level 100, right associativity) : py_scope.

(** The state a computation ends in, whether it returned or raised. *)
Definition exec {S A} (m : M S A) (s : S) : S := snd (m s).

(** The computation returned (did not raise). *)
Definition returns {S A} (m : M S A) (s : S) : Prop :=
  exists a, fst (m s) = Ok a.

(** ** Log records

    The attributes of [logging.LogRecord] that the code under study reads or
    writes.  [message] is the cache that [logging.Formatter.format] sets;
    [environment] and [extra_fields] are attached dynamically, so they are
    optional ([None]: the record has no such attribute).  Records carry no
    [args]: [getMessage()] is [str(msg)]. *)

Inductive jvalue : Type :=
| JStr (s : string)
| JInt (z : Z).

Record LogRecord : Type := mkLogRecord {
  name : string;
  levelno : Z;
  levelname : string;
  msg : string;
  module_ : string;
  funcName : string;
  lineno : Z;
  message : option string;
  environment : option string;
  extra_fields : option (list (string * jvalue))
}.

Definition set_levelname (v : string) (r : LogRecord) : LogRecord :=
  mkLogRecord (name r) (levelno r) v (msg r) (module_ r) (funcName r)
              (lineno r) (message r) (environment r) (extra_fields r).

Definition set_msg (v : string) (r : LogRecord) : LogRecord :=
  mkLogRecord (name r) (levelno r) (levelname r) v (module_ r) (funcName r)
              (lineno r) (message r) (environment r) (extra_fields r).

Definition set_message (v : string) (r : LogRecord) : LogRecord :=
  mkLogRecord (name r) (levelno r) (levelname r) (msg r) (module_ r)
              (funcName r) (lineno r) (Some v) (environment r) (extra_fields r).

Definition set_environment (v : string) (r : LogRecord) : LogRecord :=
  mkLogRecord (name r) (levelno r) (levelname r) (msg r) (module_ r)
              (funcName r) (lineno r) (message r) (Some v) (extra_fields r).

(** The five severities of [LogLevel], with [logging.getLevelName]. *)
Inductive Level : Set := DEBUG | INFO | WARNING | ERROR | CRITICAL.

Definition level_value (l : Level) : Z :=
  match l with
  | DEBUG => 10 | INFO => 20 | WARNING => 30 | ERROR => 40 | CRITICAL => 50
  end.

Definition getLevelName (l : Level) : string :=
  match l with
  | DEBUG => "DEBUG" | INFO => "INFO" | WARNING => "WARNING"
  | ERROR => "ERROR" | CRITICAL => "CRITICAL"
  end.

(** [logging.LogRecord(name, level, pathname, 1, msg, args=(), exc_info=None)]. *)
Definition makeRecord (nm : string) (l : Level) (text : string) : LogRecord :=
  mkLogRecord nm (level_value l) (getLevelName l) text "" "" 1 None None None.

(** * handlers.py *)

Module Handlers.

(** ** PostgreSQLConfig

    A plain dataclass: every field has a default and there is no
    [__post_init__]. *)

Record PostgreSQLConfig : Type := mkPostgreSQLConfig {
  host : string;
  port : Z;
  database : string;
  user : string;
  password : string;
  table_name : string;
  schema : string;
  ssl_mode : string;
  buffer_size : Z;
  batch_size : Z;
  flush_interval : float
}.

Definition default_config : PostgreSQLConfig :=
  mkPostgreSQLConfig "localhost" 5432 "logs" "postgres" "" "application_logs"
                     "public" "prefer" 1000 10 5.0%float.

(** The two relations the specification calls the invariant of a
    persistence configuration. *)
Definition config_invariant (c : PostgreSQLConfig) : Prop :=
  batch_size c <= buffer_size c /\ PrimFloat.ltb 0%float (flush_interval c) = true.

(** ** The outside world

    What the database driver answers during one call of the handler: whether
    [connect] succeeds, whether preparing the rows and [executemany] succeed,
    whether [commit] and [rollback] succeed. *)

Record Reply : Type := mkReply {
  connect_ok : bool;
  insert_ok : bool;
  commit_ok : bool;
  rollback_ok : bool
}.

Definition store_up : Reply := mkReply true true true true.
Definition store_down : Reply := mkReply false false false false.

(** What the handler asked of the driver, oldest request first. *)
Inductive db_event : Type :=
| EvConnect (ok : bool)
| EvInsert (rows : list LogRecord) (ok : bool)
| EvCommit (ok : bool)
| EvRollback (ok : bool).

Inductive thread_state : Set := Alive | Exited.

(** ** PostgreSQLHandler

    The attributes set by [__init__], then: [batch], the local variable of
    [_writer_loop] (it belongs to the writer thread); [table], the rows
    committed to the store so far; [db_trace], the requests made to the
    driver.  [log_queue] is the content of the [queue.Queue], oldest record
    first; its [maxsize] is [buffer_size config].  [connection] is [None] or a
    connection object; [psycopg_version] is [None] when no driver could be
    imported. *)

Record PostgreSQLHandler : Type := mkHandler {
  config : PostgreSQLConfig;
  log_queue : list LogRecord;
  connection : option unit;
  connected : bool;
  writer_thread : option thread_state;
  running : bool;
  logs_written : Z;
  logs_failed : Z;
  psycopg_version : option Z;
  batch : list LogRecord;
  table : list LogRecord;
  db_trace : list db_event
}.

Definition set_log_queue (q : list LogRecord) (h : PostgreSQLHandler) :=
  mkHandler (config h) q (connection h) (connected h) (writer_thread h)
            (running h) (logs_written h) (logs_failed h) (psycopg_version h)
            (batch h) (table h) (db_trace h).

Definition set_connection (c : option unit) (h : PostgreSQLHandler) :=
  mkHandler (config h) (log_queue h) c (connected h) (writer_thread h)
            (running h) (logs_written h) (logs_failed h) (psycopg_version h)
            (batch h) (table h) (db_trace h).

Definition set_connected (b : bool) (h : PostgreSQLHandler) :=
  mkHandler (config h) (log_queue h) (connection h) b (writer_thread h)
            (running h) (logs_written h) (logs_failed h) (psycopg_version h)
            (batch h) (table h) (db_trace h).

Definition set_writer_thread (t : option thread_state) (h : PostgreSQLHandler) :=
  mkHandler (config h) (log_queue h) (connection h) (connected h) t
            (running h) (logs_written h) (logs_failed h) (psycopg_version h)
            (batch h) (table h) (db_trace h).

Definition set_running (b : bool) (h : PostgreSQLHandler) :=
  mkHandler (config h) (log_queue h) (connection h) (connected h)
            (writer_thread h) b (logs_written h) (logs_failed h)
            (psycopg_version h) (batch h) (table h) (db_trace h).

Definition set_logs_written (n : Z) (h : PostgreSQLHandler) :=
  mkHandler (config h) (log_queue h) (connection h) (connected h)
            (writer_thread h) (running h) n (logs_failed h)
            (psycopg_version h) (batch h) (table h) (db_trace h).

Definition set_logs_failed (n : Z) (h : PostgreSQLHandler) :=
  mkHandler (config h) (log_queue h) (connection h) (connected h)
            (writer_thread h) (running h) (logs_written h) n
            (psycopg_version h) (batch h) (table h) (db_trace h).

Definition set_psycopg_version (v : option Z) (h : PostgreSQLHandler) :=
  mkHandler (config h) (log_queue h) (connection h) (connected h)
            (writer_thread h) (running h) (logs_written h) (logs_failed h) v
            (batch h) (table h) (db_trace h).

Definition set_batch (b : list LogRecord) (h : PostgreSQLHandler) :=
  mkHandler (config h) (log_queue h) (connection h) (connected h)
            (writer_thread h) (running h) (logs_written h) (logs_failed h)
            (psycopg_version h) b (table h) (db_trace h).

Definition set_table (t : list LogRecord) (h : PostgreSQLHandler) :=
  mkHandler (config h) (log_queue h) (connection h) (connected h)
            (writer_thread h) (running h) (logs_written h) (logs_failed h)
            (psycopg_version h) (batch h) t (db_trace h).

Definition trace (e : db_event) (h : PostgreSQLHandler) :=
  mkHandler (config h) (log_queue h) (connection h) (connected h)
            (writer_thread h) (running h) (logs_written h) (logs_failed h)
            (psycopg_version h) (batch h) (table h) (db_trace h ++ [e]).

Definition len (l : list LogRecord) : Z := Z.of_nat (length l).

Local Open Scope py_scope.

(** ** The queue: [queue.Queue(maxsize=config.buffer_size)]

    [put_nowait] raises [Full] when [maxsize > 0] and the queue holds
    [maxsize] items; a [maxsize] of zero or less means no bound. *)
Definition full (h : PostgreSQLHandler) : bool :=
  let maxsize := buffer_size (config h) in
  (0 <? maxsize) && (maxsize <=? len (log_queue h)).

Definition put_nowait (record : LogRecord) : M PostgreSQLHandler unit :=
  fun h =>
    if full h then (Raise Full, h)
    else (Ok tt, set_log_queue (log_queue h ++ [record]) h).

Definition get_nowait : M PostgreSQLHandler LogRecord :=
  fun h =>
    match log_queue h with
    | [] => (Raise Empty, h)
    | record :: q => (Ok record, set_log_queue q h)
    end.

(** [log_queue.get(timeout=t)]: a negative [t] is a [ValueError]; otherwise
    the oldest record, or [Empty] once [t] seconds passed with nothing to
    take.  One call on an empty queue stands for one whole time-out. *)
Definition get (timeout : float) : M PostgreSQLHandler LogRecord :=
  fun h =>
    if PrimFloat.ltb timeout 0%float then (Raise ValueError, h)
    else match log_queue h with
         | [] => (Raise Empty, h)
         | record :: q => (Ok record, set_log_queue q h)
         end.

(** ** emit *)
Definition emit (record : LogRecord) : M PostgreSQLHandler unit :=
  try_except (put_nowait record)
    (fun e =>
       match e with
       | Full =>
           try_except (_ <- get_nowait ;; put_nowait record)
                      (fun _ => ret tt)
       | _ => raise e
       end).

(** ** _connect *)
Definition _connect (w : Reply) : M PostgreSQLHandler unit :=
  try_except
    (h <- get_self ;;
     match psycopg_version h with
     | None => raise AttributeError
     | Some _ =>
         if connect_ok w
         then update (trace (EvConnect true)) ;;
              update (set_connection (Some tt)) ;;
              update (set_connected true)
         else update (trace (EvConnect false)) ;; raise DatabaseError
     end)
    (fun _ => update (set_connected false) ;; raise ConnectError).

(** ** _start_writer_thread *)
Definition _start_writer_thread : M PostgreSQLHandler unit :=
  update (set_running true) ;;
  update (set_batch []) ;;
  update (set_writer_thread (Some Alive)).

(** ** _write_batch *)
Definition rollback (w : Reply) : M PostgreSQLHandler unit :=
  update (trace (EvRollback (rollback_ok w))) ;;
  if rollback_ok w then ret tt else raise DatabaseError.

Definition _write_batch (w : Reply) (b : list LogRecord)
  : M PostgreSQLHandler unit :=
  match b with
  | [] => ret tt
  | _ =>
      try_except
        (h <- get_self ;;
         (if negb (connected h) then _connect w else ret tt) ;;
         h <- get_self ;;
         match connection h with
         | None => raise AttributeError
         | Some _ =>
             update (trace (EvInsert b (insert_ok w))) ;;
             (if insert_ok w then ret tt else raise DatabaseError) ;;
             update (trace (EvCommit (commit_ok w))) ;;
             (if commit_ok w then update (fun h => set_table (table h ++ b) h)
              else raise DatabaseError) ;;
             update (fun h => set_logs_written (logs_written h + len b) h)
         end)
        (fun _ =>
           h <- get_self ;;
           match connection h with
           | Some _ => try_except (rollback w) (fun _ => ret tt)
           | None => ret tt
           end ;;
           update (set_connected false) ;;
           update (fun h => set_logs_failed (logs_failed h + len b) h))
  end.

(** ** _writer_loop

    [loop_body] is one pass through the body of [while self.running]. *)
Definition loop_body (w : Reply) : M PostgreSQLHandler unit :=
  try_except
    (h <- get_self ;;
     try_except
       (record <- get (flush_interval (config h)) ;;
        update (fun h => set_batch (batch h ++ [record]) h))
       (fun e => match e with Empty => ret tt | _ => raise e end) ;;
     h <- get_self ;;
     if batch_size (config h) <=? len (batch h)
     then _write_batch w (batch h) ;; update (set_batch [])
     else ret tt)
    (fun _ => ret tt).

(** One scheduling step of the writer thread: a pass through the loop while
    [running] holds; once it does not, the pending records are written and
    the thread ends. *)
Definition writer_step (w : Reply) : M PostgreSQLHandler unit :=
  h <- get_self ;;
  match writer_thread h with
  | Some Alive =>
      if running h then loop_body w
      else (match batch h with
            | [] => ret tt
            | _ => _write_batch w (batch h)
            end ;;
            update (set_writer_thread (Some Exited)))
  | _ => ret tt
  end.

(** ** _initialize and __init__

    [driver] is the version of the driver that can be imported (3 for
    psycopg, 2 for psycopg2), [None] when neither is installed. *)
Definition _initialize (driver : option Z) (w : Reply)
  : M PostgreSQLHandler unit :=
  try_except
    (update (set_psycopg_version None) ;;
     match driver with
     | Some v => update (set_psycopg_version (Some v))
     | None => raise ImportError
     end ;;
     _connect w ;;
     _start_writer_thread)
    (fun _ => ret tt).

Definition __init__ (cfg : PostgreSQLConfig) (driver : option Z) (w : Reply)
  : PostgreSQLHandler :=
  exec (_initialize driver w)
       (mkHandler cfg [] None false None false 0 0 None [] [] []).

(** ** get_statistics *)
Record Statistics : Type := mkStatistics {
  stat_logs_written : Z;
  stat_logs_failed : Z;
  stat_queue_size : Z;
  stat_connected : bool
}.

Definition get_statistics (h : PostgreSQLHandler) : Statistics :=
  mkStatistics (logs_written h) (logs_failed h) (len (log_queue h)) (connected h).

(** ** Runs

    A run interleaves the callers' [emit]s with steps of the writer thread;
    [Stop] is the assignment [self.running = False] that opens [close] (the
    join and the closing of the connection that follow are not part of the
    runs). *)
Inductive event : Type :=
| Emit (record : LogRecord)
| Step (w : Reply)
| Stop.

Definition do_event (e : event) : M PostgreSQLHandler unit :=
  match e with
  | Emit record => emit record
  | Step w => writer_step w
  | Stop => update (set_running false)
  end.

Fixpoint run (es : list event) (h : PostgreSQLHandler) : PostgreSQLHandler :=
  match es with
  | [] => h
  | e :: es' => run es' (exec (do_event e) h)
  end.

(** Emitting the records of a list in order. *)
Definition emit_all (records : list LogRecord) : PostgreSQLHandler -> PostgreSQLHandler :=
  run (map Emit records).


(** ** Well-formed handlers

    A handler that believes it is connected holds a connection object, and a
    bounded queue holds no more than its bound.  Both hold after [__init__]
    and are kept by every event of a run. *)
Definition wf (h : PostgreSQLHandler) : Prop :=
  (connected h = true -> connection h = Some tt) /\
  (0 < buffer_size (config h) -> len (log_queue h) <= buffer_size (config h)).

(** The state of the writer thread after its pull from the queue. *)
Definition pulled (h : PostgreSQLHandler) : PostgreSQLHandler :=
  match log_queue h with
  | [] => h
  | record :: q => set_batch (batch h ++ [record]) (set_log_queue q h)
  end.

(** The reconnection that [_write_batch] attempts succeeds. *)
Definition can_connect (w : Reply) (h : PostgreSQLHandler) : bool :=
  connect_ok w && bool_decide (psycopg_version h <> None).

(** The write of a batch goes through: a connection is there or can be made,
    and neither the insert nor the commit raises. *)
Definition write_ok (w : Reply) (h : PostgreSQLHandler) : bool :=
  (connected h || can_connect w h) && insert_ok w && commit_ok w.

(** The insert is reached and it, or the commit after it, raises. *)
Definition insert_raises (w : Reply) (h : PostgreSQLHandler) : bool :=
  (connected h || can_connect w h) && negb (insert_ok w && commit_ok w).

(** What [emit] does to the handler. *)
Definition emitted (record : LogRecord) (h : PostgreSQLHandler) : PostgreSQLHandler :=
  if full h then
    match log_queue h with
    | [] => h
    | _ :: q =>
        if full (set_log_queue q h) then set_log_queue q h
        else set_log_queue (q ++ [record]) h
    end
  else set_log_queue (log_queue h ++ [record]) h.

(** The spec's end-to-end scenario. *)
Definition scenario_config : PostgreSQLConfig :=
  mkPostgreSQLConfig "localhost" 5432 "logs" "postgres" "" "application_logs"
                     "public" "prefer" 2 10 1.0%float.

Definition R1 : LogRecord := makeRecord "app" INFO "R1".
Definition R2 : LogRecord := makeRecord "app" INFO "R2".
Definition R3 : LogRecord := makeRecord "app" INFO "R3".

(** The configuration of [test_queue_overflow_handling]. *)
Definition overflow_test_config : PostgreSQLConfig :=
  mkPostgreSQLConfig "localhost" 5432 "logs" "postgres" "" "application_logs"
                     "public" "prefer" 2 10 5.0%float.

(** The scenario as a run: the three records are emitted, then the writer
    thread pulls three times; the third pull finds the queue empty and times
    out. *)
Definition scenario_events : list event :=
  [Emit R1; Emit R2; Emit R3; Step store_down; Step store_down; Step store_down].

End Handlers.

(** * filters.py *)

Module Filters.

(** ** Characters and text *)

Definition chr (n : nat) : ascii := ascii_of_nat n.
Definition ord (c : ascii) : nat := nat_of_ascii c.

Definition between (lo hi : nat) (c : ascii) : bool :=
  (lo <=? ord c)%nat && (ord c <=? hi)%nat.

(** [str.lower] on one character. *)
Definition lower (c : ascii) : ascii :=
  if between 65 90 c || (between 192 222 c && negb (ord c =? 215)%nat)
  then chr (ord c + 32)
  else c.

(** The class [\s] of [re]. *)
Definition is_space (c : ascii) : bool :=
  between 9 13 c || between 28 32 c || (ord c =? 133)%nat || (ord c =? 160)%nat.

(** The class of the two quote characters, single (39) and double (34). *)
Definition is_quote (c : ascii) : bool :=
  (ord c =? 39)%nat || (ord c =? 34)%nat.

(** The class [:=]. *)
Definition is_separator (c : ascii) : bool :=
  (ord c =? 58)%nat || (ord c =? 61)%nat.

(** The class of group 2: anything but a quote, a comma (44), white space
    and a closing brace (125). *)
Definition is_value_char (c : ascii) : bool :=
  negb (is_quote c || (ord c =? 44)%nat || is_space c || (ord c =? 125)%nat).

Definition text : Type := list ascii.

(** ** Regular expressions

    The fragment of [re] the filter uses: literal text, one character of a
    class, and a class under [?], [*] or [+]; all quantifiers are greedy and
    give back what they took when the rest of the expression fails.  Literal
    text is compared under [re.IGNORECASE]. *)
Inductive regex : Type :=
| Chars (l : text)
| Class (p : ascii -> bool)
| Opt (p : ascii -> bool)
| Star (p : ascii -> bool)
| Plus (p : ascii -> bool)
| Seq (r1 r2 : regex).

Fixpoint strip_ignorecase (l s : text) : option text :=
  match l, s with
  | [], _ => Some s
  | a :: l', c :: s' =>
      if Ascii.eqb (lower a) (lower c) then strip_ignorecase l' s' else None
  | _ :: _, [] => None
  end.

Definition or_else {A} (x : option A) (y : option A) : option A :=
  match x with Some _ => x | None => y end.

Fixpoint star {A} (p : ascii -> bool) (s : text) (k : text -> option A) : option A :=
  match s with
  | c :: s' => if p c then or_else (star p s' k) (k s) else k s
  | [] => k s
  end.

(** [bt r s k]: match [r] at the start of [s], then hand what is left of [s]
    to [k]; when [k] fails the next way of matching [r] is tried. *)
Fixpoint bt {A} (r : regex) (s : text) (k : text -> option A) : option A :=
  match r with
  | Chars l => match strip_ignorecase l s with Some s' => k s' | None => None end
  | Class p => match s with c :: s' => if p c then k s' else None | [] => None end
  | Opt p => match s with
             | c :: s' => if p c then or_else (k s') (k s) else k s
             | [] => k s
             end
  | Star p => star p s k
  | Plus p => match s with c :: s' => if p c then star p s' k else None | [] => None end
  | Seq r1 r2 => bt r1 s (fun s' => bt r2 s' k)
  end.

(** The two groups of the expression built in [_mask_sensitive_data]:
    group 1 is the pattern, an optional quote, [\s*], a separator, [\s*] and
    an optional quote; group 2 is one or more value characters.  The pattern
    is spliced into the expression as it is; it is read here as literal
    text, which is what the expression means for a key made of letters,
    digits and underscores, as all the built-in keys are. *)
Definition group1 (pattern : string) : regex :=
  Seq (Chars (list_ascii_of_string pattern))
   (Seq (Opt is_quote)
    (Seq (Star is_space)
     (Seq (Class is_separator)
      (Seq (Star is_space) (Opt is_quote))))).

Definition group2 : regex := Plus is_value_char.

(** A match at the start of [s]: what is left of [s] after group 1 and after
    group 2. *)
Definition match_at (pattern : string) (s : text) : option (text * text) :=
  bt (group1 pattern) s (fun s1 => bt group2 s1 (fun s2 => Some (s1, s2))).

Definition MASK : text := list_ascii_of_string "***MASKED***".

(** [re.sub] with the template [\1***MASKED***] and [re.IGNORECASE]: the text
    is scanned from the left; a match is replaced by its group 1 followed by
    the mask and the scan resumes after the match ([skip] counts the
    characters of the match still to pass over). *)
Fixpoint sub_from (pattern : string) (skip : nat) (s : text) : text :=
  match s with
  | [] => []
  | c :: s' =>
      match skip with
      | S n => sub_from pattern n s'
      | O =>
          match match_at pattern s with
          | Some (s1, s2) =>
              take (length s - length s1) s ++ MASK ++
              sub_from pattern (length s - length s2 - 1) s'
          | None => c :: sub_from pattern 0 s'
          end
      end
  end.

Definition re_sub (pattern : string) (s : text) : text := sub_from pattern 0 s.

(** ** SensitiveDataFilter *)

Definition SENSITIVE_PATTERNS : list string :=
  ["password"; "passwd"; "pwd"; "token"; "secret"; "api_key"; "apikey";
   "access_key"; "private_key"; "credential"; "auth"; "bearer";
   "authorization"]%string.

(** The filter object is its list of patterns; [SensitiveDataFilter
    additional_patterns] is [__init__]. *)
Definition SensitiveDataFilter (additional_patterns : list string) : list string :=
  match additional_patterns with
  | [] => SENSITIVE_PATTERNS
  | _ => SENSITIVE_PATTERNS ++ additional_patterns
  end.

Definition _mask_sensitive_data (self : list string) (t : string) : string :=
  string_of_list_ascii
    (fold_left (fun t pattern => re_sub pattern t) self (list_ascii_of_string t)).

Definition str_lower (s : string) : string :=
  string_of_list_ascii (map lower (list_ascii_of_string s)).

Fixpoint starts_with (needle hay : text) : bool :=
  match needle, hay with
  | [], _ => true
  | a :: needle', c :: hay' => Ascii.eqb a c && starts_with needle' hay'
  | _ :: _, [] => false
  end.

(** [needle in hay] on strings. *)
Fixpoint occurs_in (needle hay : text) : bool :=
  starts_with needle hay ||
  match hay with
  | [] => false
  | _ :: hay' => occurs_in needle hay'
  end.

Definition str_in (needle hay : string) : bool :=
  occurs_in (list_ascii_of_string needle) (list_ascii_of_string hay).

(** The [for pattern in self.SENSITIVE_PATTERNS] loop of [filter], with its
    [break]. *)
Fixpoint filter_loop (self patterns : list string) (message : string)
    (record : LogRecord) : LogRecord :=
  match patterns with
  | [] => record
  | pattern :: rest =>
      if str_in pattern message
      then set_msg (_mask_sensitive_data self (msg record)) record
      else filter_loop self rest message record
  end.

Definition filter (self : list string) (record : LogRecord) : bool * LogRecord :=
  match msg record with
  | EmptyString => (true, record)
  | _ => (true, filter_loop self self (str_lower (msg record)) record)
  end.

(** ** EnvironmentFilter *)
Definition environment_filter (env : string) (record : LogRecord) : bool * LogRecord :=
  (true, set_environment env record).

(** ** Text of a known shape *)

(** [q] is empty or one character of the class [p]. *)
Definition optional (p : ascii -> bool) (q : text) : Prop :=
  q = [] \/ exists c, q = [c] /\ p c = true.

(** [s] does not start with a character of the class [p]. *)
Definition stops (p : ascii -> bool) (s : text) : Prop :=
  match s with
  | [] => True
  | c :: _ => p c = false
  end.

Definition all_in (p : ascii -> bool) (s : text) : Prop :=
  Forall (fun c => p c = true) s.

(** [k] is [l] up to the case of its letters. *)
Definition same_ignorecase (l k : text) : Prop :=
  Forall2 (fun a c => lower a = lower c) l k.

(** The message of a record after the filter saw it. *)
Definition masked (self : list string) (s : string) : string :=
  msg (snd (filter self (makeRecord "app" INFO s))).

End Filters.

(** * formatters.py *)

Module Formatters.

Local Open Scope py_scope.
Local Open Scope string_scope.

(** ** logging.Formatter

    A %-style format is a sequence of literal text and of fields
    [%(name)s].  The fields are looked up among the attributes of the
    record; a field the record does not have is a [ValueError]
    ("Formatting field not found in record"). *)
Inductive piece : Type :=
| Lit (s : string)
| Field (attribute : string).

Definition record_attr (r : LogRecord) (attribute : string) : option string :=
  if String.eqb attribute "name" then Some (name r)
  else if String.eqb attribute "levelname" then Some (levelname r)
  else if String.eqb attribute "msg" then Some (msg r)
  else if String.eqb attribute "module" then Some (module_ r)
  else if String.eqb attribute "funcName" then Some (funcName r)
  else if String.eqb attribute "message" then message r
  else if String.eqb attribute "environment" then environment r
  else None.

Fixpoint formatMessage (fmt : list piece) (r : LogRecord) : option string :=
  match fmt with
  | [] => Some ""
  | Lit s :: fmt' => option_map (String.append s) (formatMessage fmt' r)
  | Field a :: fmt' =>
      match record_attr r a, formatMessage fmt' r with
      | Some v, Some rest => Some (v ++ rest)
      | _, _ => None
      end
  end.

(** [logging.Formatter.format] on a record without exception information:
    [record.message = record.getMessage()], then the format is filled in. *)
Definition Formatter_format (fmt : list piece) : M LogRecord string :=
  update (fun r => set_message (msg r) r) ;;
  r <- get_self ;;
  match formatMessage fmt r with
  | Some s => ret s
  | None => raise ValueError
  end.

(** ** ColoredFormatter *)
Definition ESC : string := String (ascii_of_nat 27) "".

Definition COLORS : list (string * string) :=
  [("DEBUG", ESC ++ "[36m"); ("INFO", ESC ++ "[32m");
   ("WARNING", ESC ++ "[33m"); ("ERROR", ESC ++ "[31m");
   ("CRITICAL", ESC ++ "[35m"); ("RESET", ESC ++ "[0m")].

Fixpoint dict_get (d : list (string * string)) (key : string) : option string :=
  match d with
  | [] => None
  | (k, v) :: d' => if String.eqb k key then Some v else dict_get d' key
  end.

Definition RESET : string := ESC ++ "[0m".

Definition ColoredFormatter_format (fmt : list piece) : M LogRecord string :=
  r <- get_self ;;
  let levelname0 := levelname r in
  match dict_get COLORS levelname0 with
  | Some color => update (set_levelname (color ++ levelname0 ++ RESET))
  | None => ret tt
  end ;;
  result <- Formatter_format fmt ;;
  update (set_levelname levelname0) ;;
  ret result.

(** ** JSONFormatter

    The dictionary [log_data] that [format] hands to [json.dumps]; [now] is
    [datetime.utcnow().isoformat()]. *)
Definition JSONFormatter_format (now : string) (r : LogRecord)
  : gmap string jvalue :=
  let log_data : gmap string jvalue :=
    <["line" := JInt (lineno r)]>
    (<["function" := JStr (funcName r)]>
    (<["module" := JStr (module_ r)]>
    (<["message" := JStr (msg r)]>
    (<["logger" := JStr (name r)]>
    (<["level" := JStr (levelname r)]>
    (<["timestamp" := JStr now]> ∅)))))) in
  let log_data :=
    match extra_fields r with
    | Some extra => fold_left (fun d kv => <[kv.1 := kv.2]> d) extra log_data
    | None => log_data
    end in
  match environment r with
  | Some env => <["environment" := JStr env]> log_data
  | None => log_data
  end.

(** A format that names an attribute the record below does not have, a
    format that names only attributes every record has, and a record as the
    tests of the formatters build it. *)
Definition leaking_format : list piece :=
  [Field "levelname"; Lit " | "; Field "environment"; Lit " | "; Field "message"].

Definition plain_format : list piece :=
  [Field "levelname"; Lit " | "; Field "message"].

Definition info_record : LogRecord := makeRecord "app" INFO "started".

End Formatters.

(** * logger.py *)

Module Logger.

Local Open Scope py_scope.
Local Open Scope string_scope.

(** ** LogConfig *)
Record LogConfig : Type := mkLogConfig {
  name : string;
  level : Z;
  environment : string;
  log_dir : option string;
  console_output : bool;
  file_output : bool;
  rotate_logs : bool;
  max_bytes : Z;
  backup_count : Z;
  json_format : bool;
  mask_sensitive : bool
}.

(** [LogConfig(name=..., environment=...)], the other fields at their
    defaults. *)
Definition LogConfig_for (nm env : string) : LogConfig :=
  mkLogConfig nm 20 env None true true true (10 * 1024 * 1024) 5 false true.

(** ** LoggerManager

    An instance is an object on the heap, known by its address.  A fresh
    object has no attributes: [config] is [None] and [_initialized] is
    [false] until [__init__] sets them. *)
Record Manager : Type := mkManager {
  config : option LogConfig;
  _initialized : bool
}.

(** The class attribute [_instances] and the objects allocated so far. *)
Record Runtime : Type := mkRuntime {
  _instances : gmap string nat;
  heap : list Manager
}.

Definition start : Runtime := mkRuntime ∅ [].

Definition instance_key (cfg : LogConfig) : string :=
  name cfg ++ "_" ++ environment cfg.

Definition __new__ (cfg : LogConfig) : M Runtime nat :=
  let key := instance_key cfg in
  rt <- get_self ;;
  match _instances rt !! key with
  | None =>
      let instance := length (heap rt) in
      update (fun rt => mkRuntime (<[key := instance]> (_instances rt))
                                  (heap rt ++ [mkManager None false])) ;;
      ret instance
  | Some instance => ret instance
  end.

Definition set_attrs (self : nat) (m : Manager) (rt : Runtime) : Runtime :=
  mkRuntime (_instances rt) (<[self := m]> (heap rt)).

(** [setup_ok] tells whether [_setup_logging] returned; it raises when a
    directory or a log file cannot be created. *)
Definition __init__ (self : nat) (cfg : LogConfig) (setup_ok : bool)
  : M Runtime unit :=
  rt <- get_self ;;
  match heap rt !! self with
  | None => raise AttributeError
  | Some m =>
      if _initialized m then ret tt
      else
        update (set_attrs self (mkManager (Some cfg) false)) ;;
        (if setup_ok then ret tt else raise OSError) ;;
        update (set_attrs self (mkManager (Some cfg) true))
  end.

(** The call [LoggerManager(config)]. *)
Definition LoggerManager (cfg : LogConfig) (setup_ok : bool) : M Runtime nat :=
  instance <- __new__ cfg ;;
  __init__ instance cfg setup_ok ;;
  ret instance.

Definition reset_instances : M Runtime unit :=
  update (fun rt => mkRuntime ∅ (heap rt)).

(** A sequence of construction requests, each with the outcome of its
    set-up; the results are listed in the order of the requests. *)
Fixpoint construct_all (requests : list (LogConfig * bool)) (rt : Runtime)
  : list (outcome nat) * Runtime :=
  match requests with
  | [] => ([], rt)
  | (cfg, ok) :: rest =>
      let (r, rt1) := LoggerManager cfg ok rt in
      let (rs, rt2) := construct_all rest rt1 in
      (r :: rs, rt2)
  end.

(** Every registered instance is an allocated object, and no object is
    registered under two keys. *)
Definition wf (rt : Runtime) : Prop :=
  (forall key i, _instances rt !! key = Some i -> (i < length (heap rt))%nat) /\
  (forall k1 k2 i, _instances rt !! k1 = Some i -> _instances rt !! k2 = Some i -> k1 = k2).

(** The requests of the specification: ("svc", "prod") twice, then
    ("svc", "dev"). *)
Definition svc_requests : list (LogConfig * bool) :=
  [(LogConfig_for "svc" "prod", true); (LogConfig_for "svc" "prod", true);
   (LogConfig_for "svc" "dev", true)].

End Logger.

(** * Views of the handler and of its queue *)

Module HandlerViews.
Import Handlers.

(** ** Accounting for the records of a run *)

(** The records a run emits, in the order of the calls. *)
Definition emitted_records (es : list event) : list LogRecord :=
  omap (fun e => match e with Emit record => Some record | _ => None end) es.

(** The batch the writer thread is holding; a thread that was not started or
    has ended holds none. *)
Definition pending (h : PostgreSQLHandler) : list LogRecord :=
  match writer_thread h with
  | Some Alive => batch h
  | _ => []
  end.

(** The records inside the pipeline, oldest first: stored, held by the
    writer, queued. *)
Definition flow (h : PostgreSQLHandler) : list LogRecord :=
  table h ++ pending h ++ log_queue h.

(** The records the handler can account for, as numbers. *)
Definition accounted (h : PostgreSQLHandler) : Z :=
  logs_written h + logs_failed h + len (pending h) + len (log_queue h).

Definition is_stop (e : event) : bool :=
  match e with Stop => true | _ => false end.

Definition is_connect (e : db_event) : bool :=
  match e with EvConnect _ => true | _ => false end.

Definition is_insert (e : db_event) : bool :=
  match e with EvInsert _ _ => true | _ => false end.

(** The requests made to the driver between two states of one handler. *)
Definition requests_since (h h' : PostgreSQLHandler) : list db_event :=
  drop (length (db_trace h)) (db_trace h').

(** A run in which [close] is never called. *)
Definition never_stopped (es : list event) : Prop :=
  forallb (fun e => negb (is_stop e)) es = true.

(** While the loop runs: the batch is below the threshold and both counters
    are multiples of the batch size. *)
Definition full_batches (h : PostgreSQLHandler) : Prop :=
  (batch_size (config h) | logs_written h) /\
  (batch_size (config h) | logs_failed h) /\
  len (batch h) < batch_size (config h) /\
  (writer_thread h = Some Alive /\ running h = true \/ writer_thread h = None).
(** ** flush

    [flush] only calls [log_queue.join()].  A [queue.Queue] counts in
    [unfinished_tasks] the items put and not yet reported with [task_done]:
    [put] adds one once the item is in, [get] leaves the counter alone, and
    [join] waits as long as the counter is not zero.  The handler is paired
    with that counter; no code of the handler calls [task_done]. *)
Record Counted : Type := mkCounted {
  handler : PostgreSQLHandler;
  unfinished_tasks : Z
}.

(** A computation of the handler that puts nothing. *)
Definition uncounted {A} (c : M PostgreSQLHandler A) : M Counted A :=
  fun t => let (r, h) := c (handler t) in (r, mkCounted h (unfinished_tasks t)).

Definition counted_put_nowait (record : LogRecord) : M Counted unit :=
  fun t =>
    match put_nowait record (handler t) with
    | (Ok x, h) => (Ok x, mkCounted h (unfinished_tasks t + 1))
    | (Raise e, h) => (Raise e, mkCounted h (unfinished_tasks t))
    end.

Local Open Scope py_scope.

Definition counted_emit (record : LogRecord) : M Counted unit :=
  try_except (counted_put_nowait record)
    (fun e =>
       match e with
       | Full =>
           try_except (_ <- uncounted get_nowait ;; counted_put_nowait record)
                      (fun _ => ret tt)
       | _ => raise e
       end).

Definition counted_event (e : event) : M Counted unit :=
  match e with
  | Emit record => counted_emit record
  | Step w => uncounted (writer_step w)
  | Stop => uncounted (update (set_running false))
  end.

Fixpoint counted_run (es : list event) (t : Counted) : Counted :=
  match es with
  | [] => t
  | e :: es' => counted_run es' (exec (counted_event e) t)
  end.

(** The test of the loop of [join]: [while self.unfinished_tasks: wait()]. *)
Definition join_waits (t : Counted) : bool := negb (unfinished_tasks t =? 0).

(** [flush], called in state [t] while the events [es] go on in the other
    threads, returns: at some point of the run [join] finds its counter at
    zero. *)
Definition flush_returns (es : list event) (t : Counted) : Prop :=
  exists n, join_waits (counted_run (take n es) t) = false.

End HandlerViews.

(** * Views of a message *)

Module FilterViews.
Import Filters.

(** The message holds neither [:] nor [=]. *)
Definition no_separator (s : string) : Prop :=
  all_in (fun c => negb (is_separator c)) (list_ascii_of_string s).

(** The mask occurs in the text. *)
Definition has_mask (s : text) : Prop := occurs_in MASK s = true.

End FilterViews.

(** * Views of a format and of the JSON object *)

Module FormatterViews.
Import Formatters.
Local Open Scope string_scope.

(** The attributes a format asks for. *)
Fixpoint fields (fmt : list piece) : list string :=
  match fmt with
  | [] => []
  | Lit _ :: fmt' => fields fmt'
  | Field a :: fmt' => a :: fields fmt'
  end.

(** The seven entries [JSONFormatter.format] starts from. *)
Definition fixed_entries (now : string) (r : LogRecord) : gmap string jvalue :=
  <["line" := JInt (lineno r)]>
  (<["function" := JStr (funcName r)]>
  (<["module" := JStr (module_ r)]>
  (<["message" := JStr (msg r)]>
  (<["logger" := JStr (name r)]>
  (<["level" := JStr (levelname r)]>
  (<["timestamp" := JStr now]> ∅)))))).

End FormatterViews.

(** * Level names *)

Module LogLevel.
Import Logger.
Local Open Scope string_scope.

(** ** LogLevel.from_string

    [str.upper] of one character, as Unicode code points: the capital of a
    small letter, [SS] for the sharp s (223), and for the micro sign (181)
    and the y with diaeresis (255) the capitals that lie beyond code point
    255. *)
Definition upper_codes (c : ascii) : list N :=
  let n := Filters.ord c in
  if Filters.between 97 122 c
     || (Filters.between 224 254 c && negb (n =? 247)%nat)
  then [N.of_nat (n - 32)]
  else if (n =? 223)%nat then [83; 83]%N
  else if (n =? 181)%nat then [924]%N
  else if (n =? 255)%nat then [376]%N
  else [N.of_nat n].

Definition str_upper (s : string) : list N :=
  flat_map upper_codes (list_ascii_of_string s).

Definition codes (s : string) : list N :=
  map (fun c => N.of_nat (Filters.ord c)) (list_ascii_of_string s).

(** [getattr(cls, level.upper(), cls.INFO)]: the attributes of [LogLevel]
    whose names have no small letter are the five levels. *)
Definition from_string (level : string) : Z :=
  let key := str_upper level in
  if decide (key = codes "DEBUG") then 10
  else if decide (key = codes "INFO") then 20
  else if decide (key = codes "WARNING") then 30
  else if decide (key = codes "ERROR") then 40
  else if decide (key = codes "CRITICAL") then 50
  else 20.

End LogLevel.

(** * middleware.py

    The helpers of the two middlewares that do not touch the request cycle.
    [request.META] is a dictionary from header names to text. *)

Module Middleware.
Import Filters.
Local Open Scope string_scope.

(** ** Text helpers: [str.strip], [str.split(',')[0]], [str.startswith],
    [str.replace] *)

Fixpoint lstrip (s : text) : text :=
  match s with
  | c :: s' => if is_space c then lstrip s' else s
  | [] => []
  end.

Definition rstrip (s : text) : text := rev (lstrip (rev s)).

Definition strip (s : text) : text := rstrip (lstrip s).

Definition comma : ascii := ","%char.

(** The first of the fields that [split(',')] returns. *)
Fixpoint first_field (s : text) : text :=
  match s with
  | [] => []
  | c :: s' => if Ascii.eqb c comma then [] else c :: first_field s'
  end.

Definition startswith (s prefix : string) : bool :=
  starts_with (list_ascii_of_string prefix) (list_ascii_of_string s).

(** [s.replace(old, new)] for a non-empty [old]: the occurrences are
    replaced from the left and do not overlap ([skip] counts the characters
    of an occurrence still to pass over). *)
Fixpoint replace_from (old new : text) (skip : nat) (s : text) : text :=
  match s with
  | [] => []
  | c :: s' =>
      match skip with
      | S n => replace_from old new n s'
      | O =>
          if starts_with old s
          then (new ++ replace_from old new (length old - 1) s')%list
          else c :: replace_from old new 0 s'
      end
  end.

Definition str_replace (old new s : string) : string :=
  string_of_list_ascii
    (replace_from (list_ascii_of_string old) (list_ascii_of_string new) 0
                  (list_ascii_of_string s)).

(** ** _get_client_ip (the same in both middlewares) *)
Definition _get_client_ip (meta : gmap string string) : string :=
  match meta !! "HTTP_X_FORWARDED_FOR" with
  | Some (String c x) =>
      string_of_list_ascii (strip (first_field (list_ascii_of_string (String c x))))
  | _ => default "" (meta !! "REMOTE_ADDR")
  end.

(** ** ExternalIntegrationLoggingMiddleware *)
Definition DEFAULT_MONITORED_PATHS : list string :=
  ["/api/erp/"; "/api/integrations/"; "/webhook/"; "/api/payment/";
   "/api/shipping/"; "/api/crm/"; "/api/email/"; "/api/sms/";
   "/api/notification/"; "/api/magento/"; "/api/ecommerce/"].

(** The dictionary in the order of its items. *)
Definition DEFAULT_INTEGRATION_TYPES : list (string * string) :=
  [("/api/erp/", "erp"); ("/api/payment/", "payment_processor");
   ("/api/shipping/", "shipping_provider"); ("/api/crm/", "crm");
   ("/webhook/", "webhook"); ("/api/magento/", "magento");
   ("/api/ecommerce/", "ecommerce"); ("/api/email/", "email_service");
   ("/api/sms/", "sms_service"); ("/api/notification/", "notification_service")].

Definition _is_integration_endpoint (monitored_paths : list string) (path : string) : bool :=
  existsb (fun p => startswith path p) monitored_paths.

Fixpoint _get_integration_type (integration_types : list (string * string))
    (path : string) : string :=
  match integration_types with
  | [] => "unknown"
  | (prefix, integration_type) :: rest =>
      if startswith path prefix then integration_type
      else _get_integration_type rest path
  end.

Definition relevant_headers : list string :=
  ["HTTP_X_WEBHOOK_ID"; "HTTP_X_REQUEST_ID"; "HTTP_X_CORRELATION_ID";
   "HTTP_AUTHORIZATION"; "HTTP_X_API_KEY"].

(** [header.lower().replace('http_', '')] *)
Definition info_key (header : string) : string :=
  str_replace "http_" "" (str_lower header).

Definition _extract_request_info (meta : gmap string string) : gmap string string :=
  fold_left
    (fun info header =>
       match meta !! header with
       | Some (String c v) =>
           if str_in "AUTHORIZATION" header || str_in "API_KEY" header
           then <[info_key header := "***"]> info
           else <[info_key header := String c v]> info
       | _ => info
       end)
    relevant_headers ∅.

(** The value of a header when it is there and not empty. *)
Definition header_value (meta : gmap string string) (header : string) : option string :=
  match meta !! header with
  | Some (String c v) => Some (String c v)
  | _ => None
  end.

End Middleware.


(** * Properties of the handler *)

Module HandlersFacts.
Import Handlers.

Ltac run_py :=
  unfold emit, put_nowait, get_nowait, get, _connect, _write_batch, rollback,
    loop_body, writer_step, _initialize, _start_writer_thread, try_except,
    bind, ret, raise, update, get_self, exec, returns in *.

Lemma emit_emitted record h : emit record h = (Ok tt, emitted record h).
Proof.
  unfold emitted. run_py.
  destruct (full h); [|reflexivity].
  destruct (log_queue h) as [|x q]; [reflexivity|].
  cbn. destruct (full (set_log_queue q h)); reflexivity.
Qed.

Lemma emit_returns (record : LogRecord) (h : PostgreSQLHandler) :
  returns (emit record) h.
Proof. exists tt. by rewrite emit_emitted. Qed.

Lemma emit_config record h : config (exec (emit record) h) = config h.
Proof.
  unfold exec. rewrite emit_emitted. unfold emitted. cbn.
  destruct (full h); [|reflexivity].
  destruct (log_queue h); [reflexivity|].
  destruct (full _); reflexivity.
Qed.

Lemma full_spec h :
  0 < buffer_size (config h) ->
  full h = true <-> buffer_size (config h) <= len (log_queue h).
Proof.
  intros Hpos. unfold full. cbn.
  rewrite andb_true_iff, Z.ltb_lt, Z.leb_le. tauto.
Qed.

Lemma emit_queue record h :
  0 < buffer_size (config h) -> len (log_queue h) <= buffer_size (config h) ->
  log_queue (exec (emit record) h) =
  drop (length (log_queue h ++ [record]) - Z.to_nat (buffer_size (config h)))
       (log_queue h ++ [record]).
Proof.
  intros Hpos Hle. unfold exec. rewrite emit_emitted. unfold emitted. cbn [snd].
  rewrite length_app. cbn [length]. unfold len in *.
  destruct (full h) eqn:Hf.
  - apply full_spec in Hf; [|done]. unfold len in Hf.
    destruct (log_queue h) as [|x q] eqn:Hq; cbn [length] in *; [lia|].
    destruct (full (set_log_queue q h)) eqn:Hf'.
    + apply full_spec in Hf'; [|done]. cbn in Hf'. unfold len in Hf'. lia.
    + cbn. replace (S (length q + 1) - Z.to_nat (buffer_size (config h)))%nat with 1%nat by lia.
      reflexivity.
  - assert (~ buffer_size (config h) <= len (log_queue h)) as Hn.
    { rewrite <- full_spec by done. congruence. }
    unfold len in Hn. cbn.
    replace (length (log_queue h) + 1 - Z.to_nat (buffer_size (config h)))%nat with 0%nat by lia.
    reflexivity.
Qed.

Lemma emit_all_config records h : config (emit_all records h) = config h.
Proof.
  revert h. induction records as [|r rs IH]; intros h; [reflexivity|].
  unfold emit_all in *. cbn. rewrite IH. apply emit_config.
Qed.

Lemma emit_all_queue records h :
  0 < buffer_size (config h) -> len (log_queue h) <= buffer_size (config h) ->
  log_queue (emit_all records h) =
  drop (length (log_queue h ++ records) - Z.to_nat (buffer_size (config h)))
       (log_queue h ++ records).
Proof.
  revert h. induction records as [|r rs IH]; intros h Hpos Hle.
  - cbn. rewrite app_nil_r. unfold len in Hle.
    replace (length (log_queue h) - Z.to_nat (buffer_size (config h)))%nat with 0%nat by lia.
    reflexivity.
  - unfold emit_all in *. cbn [map run do_event].
    pose proof (emit_queue r h Hpos Hle) as Hq.
    pose proof (emit_config r h) as Hc.
    set (L := log_queue h ++ [r]) in *.
    set (C := Z.to_nat (buffer_size (config h))) in *.
    assert (length L = S (length (log_queue h))) as HL.
    { unfold L. rewrite length_app. cbn. lia. }
    rewrite IH; rewrite ?Hc, ?Hq; [|done|].
    + fold C. rewrite <- drop_app_le by lia. rewrite drop_drop.
      replace (log_queue h ++ r :: rs) with (L ++ rs)
        by (unfold L; by rewrite <- app_assoc).
      f_equal. rewrite !length_app, length_drop, length_app. lia.
    + unfold len in *. rewrite length_drop. lia.
Qed.

Ltac break_handler h :=
  destruct h as [cfg q conn cnd thr rn lw lf ver bt tb tr]; cbn in *.

Lemma write_batch_returns w b h : returns (_write_batch w b) h.
Proof.
  break_handler h. destruct w as [[] [] [] []], b, cnd, conn, ver; cbn; run_py; cbn; eauto.
Qed.

Lemma write_batch_frame w b h :
  let h' := exec (_write_batch w b) h in
  log_queue h' = log_queue h /\ running h' = running h /\
  config h' = config h /\ batch h' = batch h /\
  writer_thread h' = writer_thread h.
Proof.
  break_handler h. destruct w as [[] [] [] []], b, cnd, conn, ver; cbn; auto.
Qed.

Lemma write_batch_reconnect_fails w b h :
  b <> [] -> connected h = false -> can_connect w h = false ->
  let h' := exec (_write_batch w b) h in
  logs_failed h' = logs_failed h + len b /\
  logs_written h' = logs_written h /\
  table h' = table h /\
  connected h' = false.
Proof.
  intros Hb Hc Hw. break_handler h. subst cnd. unfold can_connect in Hw. cbn in Hw.
  destruct b as [|r b]; [done|].
  destruct w as [[] [] [] []], conn, ver; cbn in *; try done; auto.
Qed.

Lemma write_batch_insert_raises w b h :
  wf h -> b <> [] -> insert_raises w h = true ->
  let h' := exec (_write_batch w b) h in
  last (db_trace h') = Some (EvRollback (rollback_ok w)) /\
  connected h' = false /\
  logs_failed h' = logs_failed h + len b /\
  logs_written h' = logs_written h /\
  table h' = table h.
Proof.
  intros [Hwf _] Hb Hw. break_handler h. unfold insert_raises, can_connect in Hw. cbn in Hw.
  destruct b as [|r b]; [done|].
  destruct w as [[] [] [] []], cnd, conn as [[]|], ver; cbn in *;
    try done; try (by specialize (Hwf eq_refl));
    rewrite ?last_snoc, ?last_app; cbn; auto.
Qed.

Lemma write_batch_ok w b h :
  wf h -> write_ok w h = true ->
  let h' := exec (_write_batch w b) h in
  logs_written h' = logs_written h + len b /\
  logs_failed h' = logs_failed h /\
  table h' = table h ++ b.
Proof.
  intros [Hwf _] Hw. break_handler h. unfold write_ok, can_connect in Hw. cbn in Hw.
  destruct b as [|r b]; [unfold len; cbn; rewrite app_nil_r; split_and!; auto; lia|].
  destruct w as [[] [] [] []], cnd, conn as [[]|], ver; cbn in *;
    try done; try (by specialize (Hwf eq_refl)); auto.
Qed.

Lemma write_batch_not_ok w b h :
  write_ok w h = false \/ connection h = None /\ connected h = true ->
  let h' := exec (_write_batch w b) h in
  logs_failed h' = logs_failed h + len b /\
  logs_written h' = logs_written h /\
  table h' = table h.
Proof.
  intros Hw. break_handler h. unfold write_ok, can_connect in Hw. cbn in Hw.
  destruct b as [|r b]; [unfold len; cbn; split_and!; auto; lia|].
  destruct w as [[] [] [] []], cnd, conn as [[]|], ver; cbn in *;
    try done; auto; destruct Hw as [|[? ?]]; done.
Qed.

Lemma loop_body_threshold w h :
  PrimFloat.ltb (flush_interval (config h)) 0 = false ->
  batch_size (config h) <= len (batch (pulled h)) ->
  loop_body w h =
  (Ok tt, set_batch [] (exec (_write_batch w (batch (pulled h))) (pulled h))).
Proof.
  intros Ht Hb. unfold loop_body, get, try_except, bind, get_self, update, ret, exec.
  rewrite Ht. unfold pulled in *.
  destruct (log_queue h) as [|r q] eqn:Hq; cbn -[_write_batch] in *.
  - destruct (Z.leb_spec (batch_size (config h)) (len (batch h))); [|lia].
    pose proof (write_batch_returns w (batch h) h) as [[] Hr].
    destruct (_write_batch w (batch h) h) as [[[]|e] h']; cbn in *; done.
  - destruct (Z.leb_spec (batch_size (config h)) (len (batch h ++ [r]))); [|lia].
    set (h1 := set_batch _ _).
    pose proof (write_batch_returns w (batch h ++ [r]) h1) as [[] Hr].
    destruct (_write_batch w (batch h ++ [r]) h1) as [[[]|e] h']; cbn in *; done.
Qed.

Lemma loop_body_below w h :
  PrimFloat.ltb (flush_interval (config h)) 0 = false ->
  len (batch (pulled h)) < batch_size (config h) ->
  loop_body w h = (Ok tt, pulled h).
Proof.
  intros Ht Hb. unfold loop_body, get, try_except, bind, get_self, update, ret, exec.
  rewrite Ht. unfold pulled in *.
  destruct (log_queue h) as [|r q] eqn:Hq; cbn -[_write_batch] in *.
  - destruct (Z.leb_spec (batch_size (config h)) (len (batch h))); [lia|done].
  - destruct (Z.leb_spec (batch_size (config h)) (len (batch h ++ [r]))); [lia|done].
Qed.

Lemma loop_body_bad_timeout w h :
  PrimFloat.ltb (flush_interval (config h)) 0 = true ->
  loop_body w h = (Ok tt, h).
Proof.
  intros Ht. unfold loop_body, get, try_except, bind, get_self, update, ret, exec.
  by rewrite Ht.
Qed.

Lemma write_batch_wf w b h : wf h -> wf (exec (_write_batch w b) h).
Proof.
  intros [Hc Hq]. break_handler h. split; [|].
  - destruct b as [|r b]; [done|].
    destruct w as [[] [] [] []], cnd, conn as [[]|], ver; cbn in *; try done;
      try (by specialize (Hc eq_refl)).
  - destruct b as [|r b]; [done|].
    destruct w as [[] [] [] []], cnd, conn as [[]|], ver; cbn in *; auto.
Qed.

Lemma pulled_wf h : wf h -> wf (pulled h).
Proof.
  intros [Hc Hq]. unfold pulled. destruct (log_queue h) as [|r q] eqn:E.
  { split; [done|]. by rewrite E. }
  split; cbn; [done|]. intros Hpos. specialize (Hq Hpos).
  unfold len in *. cbn [length] in Hq. lia.
Qed.

Lemma set_batch_wf b h : wf h -> wf (set_batch b h).
Proof. intros [Hc Hq]. by split. Qed.

Lemma loop_body_wf w h : wf h -> wf (exec (loop_body w) h).
Proof.
  intros Hwf. unfold exec.
  destruct (PrimFloat.ltb (flush_interval (config h)) 0) eqn:Ht.
  - by rewrite loop_body_bad_timeout.
  - destruct (Z.le_gt_cases (batch_size (config h)) (len (batch (pulled h)))).
    + rewrite loop_body_threshold by done. cbn [snd].
      apply set_batch_wf, write_batch_wf, pulled_wf, Hwf.
    + rewrite loop_body_below by done. by apply pulled_wf.
Qed.

Lemma emit_wf record h : wf h -> wf (exec (emit record) h).
Proof.
  intros [Hc Hq]. split.
  - unfold exec. rewrite emit_emitted. unfold emitted. cbn [snd].
    destruct (full h); [|done]. destruct (log_queue h); [done|].
    destruct (full _); done.
  - rewrite emit_config. intros Hpos. specialize (Hq Hpos).
    rewrite emit_queue by done. unfold len in *.
    rewrite length_drop, length_app. cbn [length]. lia.
Qed.

Lemma wf_event e h : wf h -> wf (exec (do_event e) h).
Proof.
  intros Hwf. destruct e as [record|w|]; cbn [do_event].
  - by apply emit_wf.
  - unfold writer_step, exec, bind, get_self.
    destruct (writer_thread h) as [[]|]; [|done|done].
    destruct (running h); [by apply loop_body_wf|].
    destruct (batch h) as [|r b] eqn:Hb; [by destruct Hwf|].
    pose proof (write_batch_wf w (r :: b) h Hwf) as Hw.
    pose proof (write_batch_returns w (r :: b) h) as [[] Hr].
    unfold exec in Hw. unfold ret, update.
    destruct (_write_batch w (r :: b) h) as [[[]|e] h']; cbn in *; [|done].
    by destruct Hw.
  - by destruct Hwf.
Qed.

Lemma wf_run es h : wf h -> wf (run es h).
Proof.
  revert h. induction es as [|e es IH]; intros h Hwf; [done|].
  cbn. by apply IH, wf_event.
Qed.

Lemma wf_init cfg driver w : wf (__init__ cfg driver w).
Proof.
  destruct w as [[] ? ? ?], driver; cbn; split; cbn; try done; unfold len; cbn; lia.
Qed.

(** Below the threshold a pass of the loop only moves a record, if there is
    one, from the queue to the batch: nothing is asked of the store. *)
Lemma loop_body_below_no_write w h :
  len (batch (pulled h)) < batch_size (config h) ->
  let h' := exec (loop_body w) h in
  db_trace h' = db_trace h /\ logs_failed h' = logs_failed h /\
  logs_written h' = logs_written h /\ table h' = table h.
Proof.
  intros Hb. unfold exec.
  destruct (PrimFloat.ltb (flush_interval (config h)) 0) eqn:Ht.
  - by rewrite loop_body_bad_timeout.
  - rewrite loop_body_below by done. cbn [snd]. unfold pulled.
    destruct (log_queue h); done.
Qed.

(** A pull that times out while the batch is below the threshold changes
    nothing at all, whatever the batch holds. *)
Lemma timeout_below_threshold w h :
  log_queue h = [] -> len (batch h) < batch_size (config h) ->
  exec (loop_body w) h = h.
Proof.
  intros Hq Hb. unfold exec.
  destruct (PrimFloat.ltb (flush_interval (config h)) 0) eqn:Ht.
  - by rewrite loop_body_bad_timeout.
  - assert (pulled h = h) as Hp by (unfold pulled; by rewrite Hq).
    rewrite loop_body_below; rewrite ?Hp; done.
Qed.

(** A handler whose writer thread was never started ignores every step and
    stop: only [emit] changes it. *)
Lemma no_thread_run es h :
  writer_thread h = None ->
  let h' := run es h in
  writer_thread h' = None /\ table h' = table h /\
  logs_written h' = logs_written h /\ logs_failed h' = logs_failed h /\
  db_trace h' = db_trace h /\ connected h' = connected h.
Proof.
  revert h. induction es as [|e es IH]; intros h Ht; [done|].
  cbn [run].
  assert (writer_thread (exec (do_event e) h) = None /\
          table (exec (do_event e) h) = table h /\
          logs_written (exec (do_event e) h) = logs_written h /\
          logs_failed (exec (do_event e) h) = logs_failed h /\
          db_trace (exec (do_event e) h) = db_trace h /\
          connected (exec (do_event e) h) = connected h) as (H1 & H2 & H3 & H4 & H5 & H6).
  { destruct e as [record|w|]; cbn [do_event].
    - unfold exec. rewrite emit_emitted. cbn [snd]. unfold emitted.
      destruct (full h); [|done]. destruct (log_queue h); [done|].
      destruct (full _); done.
    - unfold writer_step, exec, bind, get_self. by rewrite Ht.
    - done. }
  destruct (IH _ H1) as (? & ? & ? & ? & ? & ?).
  split_and!; congruence.
Qed.

(** Without a driver or without a connection at construction, the writer
    thread is not started. *)
Lemma init_without_connection cfg driver w :
  connect_ok w = false \/ driver = None ->
  let h := __init__ cfg driver w in
  writer_thread h = None /\ running h = false /\ connected h = false.
Proof.
  intros [H| ->].
  - destruct w as [c ? ? ?]. cbn in H. subst c. by destruct driver.
  - by destruct w as [[] ? ? ?].
Qed.

(** C3. [emit] returns in every state: it never raises to the caller (and
    uses only the non-blocking queue operations).  On a bounded queue, of
    capacity C > 0 and holding at most C records, once more than C records
    were emitted with no pull in between the queue holds exactly the C newest
    of them, oldest first: the older ones were evicted. *)
Theorem emit_drop_oldest (h : PostgreSQLHandler) (records : list LogRecord) :
  0 < buffer_size (config h) ->
  len (log_queue h) <= buffer_size (config h) ->
  (forall h0 record, returns (emit record) h0) /\
  (buffer_size (config h) < len records ->
   log_queue (emit_all records h) =
     drop (length records - Z.to_nat (buffer_size (config h))) records /\
   len (log_queue (emit_all records h)) = buffer_size (config h)).
Proof.
  intros Hpos Hle. split; [intros; apply emit_returns|]. intros Hlen.
  rewrite emit_all_queue by done. unfold len in *.
  assert (drop (length (log_queue h ++ records) - Z.to_nat (buffer_size (config h)))
            (log_queue h ++ records)
          = drop (length records - Z.to_nat (buffer_size (config h))) records) as ->.
  { rewrite length_app.
    replace (length (log_queue h) + length records - Z.to_nat (buffer_size (config h)))%nat
      with (length (log_queue h) + (length records - Z.to_nat (buffer_size (config h))))%nat by lia.
    by rewrite drop_app_add. }
  split; [done|]. rewrite length_drop. lia.
Qed.

(** C3 at the scenario of the specification: capacity 2, records R1, R2, R3. *)
Lemma emit_drop_oldest_witness :
  log_queue (emit_all [R1; R2; R3] (__init__ scenario_config (Some 2) store_up))
  = [R2; R3].
Proof.
  refine (proj1 (proj2 (emit_drop_oldest
            (__init__ scenario_config (Some 2) store_up) [R1; R2; R3] _ _) _)).
  - vm_compute. reflexivity.
  - vm_compute. discriminate.
  - vm_compute. reflexivity.
Defined.

(** C4. The write of a non-empty batch [b] never raises.  When the handler
    is disconnected and the reconnection fails, the failure counter grows by
    exactly the size of [b]; nothing is written, the queue and [running] are
    untouched and the handler stays disconnected.  When the insert (or the
    commit) raises, a rollback is requested, the handler is marked
    disconnected and the failure counter grows by the size of [b].  In the
    loop, a pass that reaches the threshold ends with an empty batch, so the
    batch is dropped whatever the write did, and the pass returns. *)
Theorem failed_write_is_counted_and_dropped
    (w : Reply) (h : PostgreSQLHandler) (b : list LogRecord) :
  wf h -> b <> [] ->
  let h' := exec (_write_batch w b) h in
  (connected h = false -> can_connect w h = false ->
   returns (_write_batch w b) h /\
   logs_failed h' = logs_failed h + len b /\
   logs_written h' = logs_written h /\
   table h' = table h /\
   log_queue h' = log_queue h /\
   connected h' = false /\
   running h' = running h) /\
  (insert_raises w h = true ->
   returns (_write_batch w b) h /\
   last (db_trace h') = Some (EvRollback (rollback_ok w)) /\
   connected h' = false /\
   logs_failed h' = logs_failed h + len b /\
   logs_written h' = logs_written h /\
   table h' = table h /\
   log_queue h' = log_queue h /\
   running h' = running h) /\
  (forall h0,
     pulled h0 = h -> batch h = b ->
     PrimFloat.ltb (flush_interval (config h0)) 0 = false ->
     batch_size (config h0) <= len b ->
     returns (loop_body w) h0 /\
     exec (loop_body w) h0 = set_batch [] h').
Proof.
  intros Hwf Hb h'.
  destruct (write_batch_frame w b h) as (Hq & Hr & _).
  split_and!.
  - intros Hc Hw.
    destruct (write_batch_reconnect_fails w b h Hb Hc Hw) as (? & ? & ? & ?).
    split_and!; auto using write_batch_returns.
  - intros Hi.
    destruct (write_batch_insert_raises w b h Hwf Hb Hi) as (? & ? & ? & ? & ?).
    split_and!; auto using write_batch_returns.
  - intros h0 Hp Hbt Ht Hsz. subst h b.
    unfold returns, exec. rewrite loop_body_threshold by done. eauto.
Qed.

(** C4 on a batch of two records: once with the insert raising, once with
    the store unreachable. *)
Lemma failed_write_is_counted_and_dropped_witness :
  let h := set_batch [R1; R2] (__init__ scenario_config (Some 2) store_up) in
  logs_failed (exec (_write_batch (mkReply true false true true) [R1; R2]) h) = 2 /\
  logs_failed (exec (_write_batch store_down [R1; R2]) (set_connected false h)) = 2.
Proof.
  intros h. split.
  - refine (proj1 (proj2 (proj2 (proj2 (proj1 (proj2
      (failed_write_is_counted_and_dropped (mkReply true false true true) h [R1; R2] _ _)) _))))).
    + split; vm_compute; [reflexivity | discriminate].
    + discriminate.
    + vm_compute. reflexivity.
  - refine (proj1 (proj2 (proj1
      (failed_write_is_counted_and_dropped store_down (set_connected false h) [R1; R2] _ _) _ _))).
    + split; vm_compute; [discriminate | discriminate].
    + discriminate.
    + vm_compute. reflexivity.
    + vm_compute. reflexivity.
Defined.

(** C5. When the write of a batch [b] goes through (a connection is there
    or is made, insert and commit succeed), the success counter grows by
    exactly the size of [b], the failure counter does not move, the rows are
    in the table; in the loop the batch is empty after the pass. *)
Theorem committed_batch_counts_once
    (w : Reply) (h : PostgreSQLHandler) (b : list LogRecord) :
  wf h -> write_ok w h = true ->
  let h' := exec (_write_batch w b) h in
  logs_written h' = logs_written h + len b /\
  logs_failed h' = logs_failed h /\
  table h' = table h ++ b /\
  (forall h0,
     pulled h0 = h -> batch h = b ->
     PrimFloat.ltb (flush_interval (config h0)) 0 = false ->
     batch_size (config h0) <= len b ->
     let h2 := exec (loop_body w) h0 in
     batch h2 = [] /\
     logs_written h2 = logs_written h0 + len b /\
     logs_failed h2 = logs_failed h0).
Proof.
  intros Hwf Hw h'.
  destruct (write_batch_ok w b h Hwf Hw) as (H1 & H2 & H3).
  split_and!; try done.
  intros h0 Hp Hbt Ht Hsz h2. subst h2 h' h b.
  unfold exec in *. rewrite loop_body_threshold by done. cbn [snd].
  unfold exec. split_and!; [done| |].
  - cbn. rewrite H1. unfold pulled. destruct (log_queue h0); done.
  - cbn. rewrite H2. unfold pulled. destruct (log_queue h0); done.
Qed.

(** C5 on a batch of two records with the store up. *)
Lemma committed_batch_counts_once_witness :
  let h := set_batch [R1; R2] (__init__ scenario_config (Some 2) store_up) in
  logs_written (exec (_write_batch store_up [R1; R2]) h) = 2 /\
  logs_failed (exec (_write_batch store_up [R1; R2]) h) = 0.
Proof.
  intros h.
  refine ((fun H => conj (proj1 H) (proj1 (proj2 H)))
            (committed_batch_counts_once store_up h [R1; R2] _ _)).
  - split; vm_compute; [reflexivity | discriminate].
  - vm_compute. reflexivity.
Defined.

Lemma repeat_timeouts w n h :
  running h = true ->
  log_queue h = [] -> len (batch h) < batch_size (config h) ->
  run (repeat (Step w) n) h = h.
Proof.
  intros Hr Hq Hb. induction n as [|n IH]; [done|].
  cbn [repeat run do_event].
  assert (exec (writer_step w) h = h) as ->; [|done].
  unfold writer_step, exec, bind, get_self.
  destruct (writer_thread h) as [[]|]; [|done|done].
  rewrite Hr. by apply timeout_below_threshold.
Qed.

(** C1. The scenario of the specification (capacity 2, batch size 10, flush
    interval 1s, records R1, R2, R3, store unreachable while the writer
    runs).  With the writer started, the two pulls move R2 and R3 into the
    batch and the pull that times out writes nothing: the queue is empty but
    the failure counter is 0, the batch still holds R2 and R3, the only
    request ever made to the driver is the connection of [__init__], and no
    number of further time-outs changes that.  With the store unreachable
    from the construction on, the writer never starts: the queue keeps R2 and
    R3 and the failure counter stays 0. *)
Theorem scenario_timeout_does_not_flush :
  let started := run scenario_events (__init__ scenario_config (Some 2) store_up) in
  let never_started := run scenario_events (__init__ scenario_config (Some 2) store_down) in
  (log_queue started = [] /\ batch started = [R2; R3] /\
   logs_failed started = 0 /\ db_trace started = [EvConnect true] /\
   forall n, run (repeat (Step store_down) n) started = started) /\
  (log_queue never_started = [R2; R3] /\ logs_failed never_started = 0 /\
   writer_thread never_started = None /\
   forall n, logs_failed (run (repeat (Step store_down) n) never_started) = 0).
Proof.
  split.
  - split_and!; try (vm_compute; reflexivity).
    intros n. apply repeat_timeouts; vm_compute; reflexivity.
  - split_and!; try (vm_compute; reflexivity).
    intros n.
    match goal with |- logs_failed (run _ ?h) = _ =>
      destruct (no_thread_run (repeat (Step store_down) n) h eq_refl)
        as (_ & _ & _ & -> & _) end.
    vm_compute. reflexivity.
Qed.

(** C2. A handler built while the store is unreachable has no writer
    thread and is not running; whatever is emitted afterwards and however
    often the writer is scheduled, with the store reachable again or not,
    nothing is written, the handler stays disconnected and the failed
    connection of [__init__] remains the only request made to the driver: no
    reconnection is ever attempted. *)
Theorem failed_start_never_writes :
  let h0 := __init__ default_config (Some 2) store_down in
  writer_thread h0 = None /\ running h0 = false /\ connected h0 = false /\
  forall es : list event,
    let h := run es h0 in
    table h = [] /\ logs_written h = 0 /\ connected h = false /\
    db_trace h = [EvConnect false].
Proof.
  intros h0. split_and!; try (vm_compute; reflexivity).
  intros es h.
  destruct (no_thread_run es h0 eq_refl) as (Ht & H1 & H2 & H3 & H4 & H5).
  fold h in Ht, H1, H2, H3, H4, H5. split_and!; done.
Qed.

(** C6, as amended. The default configuration satisfies
    [batch_size <= buffer_size] and [flush_interval > 0]; the handler keeps
    the configuration it is given, whatever its values. *)
Theorem default_config_holds_and_nothing_is_validated :
  config_invariant default_config /\
  forall (cfg : PostgreSQLConfig) (driver : option Z) (w : Reply),
    config (__init__ cfg driver w) = cfg /\
    log_queue (__init__ cfg driver w) = [].
Proof.
  split.
  - split; vm_compute; [discriminate | reflexivity].
  - intros cfg driver [[] ? ? ?]; destruct driver; cbn; done.
Qed.

(** C6 as stated fails: the handler accepts the configuration of
    [test_queue_overflow_handling] (buffer_size 2, batch_size 10), which
    breaks [batch_size <= buffer_size]. *)
Lemma overflow_test_config_accepted :
  ~ config_invariant (config (__init__ overflow_test_config (Some 2) store_up)).
Proof. intros [H _]. vm_compute in H. by apply H. Qed.

End HandlersFacts.

(** * Properties of the filters *)

Module FiltersFacts.
Import Filters.

(** ** The character classes do not overlap *)

Ltac by_cases_on c := destruct c as [[] [] [] [] [] [] [] []]; vm_compute; congruence.

Lemma space_not_quote c : is_space c = true -> is_quote c = false.
Proof. by_cases_on c. Qed.
Lemma separator_not_quote c : is_separator c = true -> is_quote c = false.
Proof. by_cases_on c. Qed.
Lemma separator_not_space c : is_separator c = true -> is_space c = false.
Proof. by_cases_on c. Qed.
Lemma quote_not_space c : is_quote c = true -> is_space c = false.
Proof. by_cases_on c. Qed.
Lemma value_not_space c : is_value_char c = true -> is_space c = false.
Proof. by_cases_on c. Qed.
Lemma value_not_quote c : is_value_char c = true -> is_quote c = false.
Proof. by_cases_on c. Qed.

(** ** How the matcher runs on text of a known shape *)

Lemma strip_ignorecase_app l k s :
  same_ignorecase l k -> strip_ignorecase l (k ++ s) = Some s.
Proof.
  induction 1 as [|a c l k Hac _ IH]; cbn; [done|].
  rewrite Hac, Ascii.eqb_refl. exact IH.
Qed.

Lemma bt_seq {A} r1 r2 s (kont : text -> option A) :
  bt (Seq r1 r2) s kont = bt r1 s (fun s' => bt r2 s' kont).
Proof. reflexivity. Qed.

Lemma bt_star {A} p s (kont : text -> option A) :
  bt (Star p) s kont = star p s kont.
Proof. reflexivity. Qed.

Lemma bt_class {A} p c s (kont : text -> option A) :
  p c = true -> bt (Class p) (c :: s) kont = kont s.
Proof. cbn. by intros ->. Qed.

Lemma bt_chars {A} l k s (kont : text -> option A) :
  same_ignorecase l k -> bt (Chars l) (k ++ s) kont = kont s.
Proof. intros H. cbn. by rewrite strip_ignorecase_app. Qed.

Section Continuation.
Context {A : Type} (kont : text -> option A) (res : A).

Lemma star_stops p s : stops p s -> star p s kont = kont s.
Proof. destruct s as [|c s]; cbn; [done|]. by intros ->. Qed.

Lemma star_all p ws s :
  all_in p ws -> stops p s -> kont s = Some res ->
  star p (ws ++ s) kont = Some res.
Proof.
  intros Hws Hs Hk. induction Hws as [|c ws Hc _ IH]; cbn.
  - by rewrite star_stops.
  - by rewrite Hc, IH.
Qed.

Lemma opt_some p q s :
  optional p q -> stops p s -> kont s = Some res ->
  bt (Opt p) (q ++ s) kont = Some res.
Proof.
  intros [->|(c & -> & Hc)] Hs Hk; cbn.
  - destruct s as [|c s]; cbn in *; [done|]. by rewrite Hs.
  - by rewrite Hc, Hk.
Qed.

Lemma plus_all p v s :
  v <> [] -> all_in p v -> stops p s -> kont s = Some res ->
  bt (Plus p) (v ++ s) kont = Some res.
Proof.
  intros Hv Hall Hs Hk. destruct Hall as [|c v Hc Hall]; [done|].
  cbn. rewrite Hc. by apply star_all.
Qed.
End Continuation.

Lemma stops_app_nonempty p (v s : text) (q : ascii -> bool) :
  v <> [] -> all_in q v -> (forall c, q c = true -> p c = false) ->
  stops p (v ++ s).
Proof.
  intros Hv Hall Hq. destruct Hall as [|c v Hc _]; [done|]. cbn. by apply Hq.
Qed.

Lemma stops_optional_app p (o s : text) (q : ascii -> bool) :
  optional q o -> (forall c, q c = true -> p c = false) -> stops p s ->
  stops p (o ++ s).
Proof.
  intros [->|(c & -> & Hc)] Hq Hs; cbn; [done|by apply Hq].
Qed.

Lemma stops_all_app p (ws s : text) (q : ascii -> bool) :
  all_in q ws -> (forall c, q c = true -> p c = false) -> stops p s ->
  stops p (ws ++ s).
Proof.
  intros [|c ws' Hc _] Hq Hs; cbn; [done|by apply Hq].
Qed.

(** The match on one assignment: key, optional quote, white space, separator,
    white space, optional quote, value. *)
Lemma match_at_assignment pattern k q1 ws1 sep ws2 q2 value rest :
  same_ignorecase (list_ascii_of_string pattern) k ->
  optional is_quote q1 -> all_in is_space ws1 ->
  is_separator sep = true ->
  all_in is_space ws2 -> optional is_quote q2 ->
  value <> [] -> all_in is_value_char value -> stops is_value_char rest ->
  match_at pattern (k ++ q1 ++ ws1 ++ sep :: ws2 ++ q2 ++ value ++ rest)
  = Some (value ++ rest, rest).
Proof.
  intros Hk Hq1 Hws1 Hsep Hws2 Hq2 Hv Hval Hrest.
  unfold match_at, group1, group2.
  rewrite bt_seq, (bt_chars _ k) by done.
  rewrite bt_seq. apply opt_some; [done| |].
  { apply (stops_all_app _ _ _ is_space); [done|apply space_not_quote|].
    cbn. by apply separator_not_quote. }
  rewrite bt_seq, bt_star. apply star_all; [done| |].
  { cbn. by apply separator_not_space. }
  rewrite bt_seq, bt_class by done.
  rewrite bt_seq, bt_star. apply star_all; [done| |].
  { apply (stops_optional_app _ _ _ is_quote); [done|apply quote_not_space|].
    apply (stops_app_nonempty _ _ _ is_value_char); [done|done|apply value_not_space]. }
  apply opt_some; [done| |].
  { apply (stops_app_nonempty _ _ _ is_value_char); [done|done|apply value_not_quote]. }
  by apply plus_all.
Qed.

Lemma sub_from_skip pattern xs rest :
  sub_from pattern (length xs) (xs ++ rest) = sub_from pattern 0 rest.
Proof.
  induction xs as [|x xs IH]; cbn [length app]; [done|].
  cbn [sub_from]. exact IH.
Qed.


(** Text in which no match starts is copied as it is. *)
Lemma re_sub_no_match pattern pre s :
  (forall i, (i < length pre)%nat -> match_at pattern (drop i (pre ++ s)) = None) ->
  re_sub pattern (pre ++ s) = pre ++ re_sub pattern s.
Proof.
  unfold re_sub. induction pre as [|c pre IH]; intros H; [done|].
  pose proof (H 0%nat ltac:(cbn; lia)) as H0. cbn [drop app] in H0.
  cbn [app sub_from]. rewrite H0. f_equal.
  apply IH. intros i Hi. apply (H (S i)). cbn. lia.
Qed.


(** ** The filter as a whole *)

Lemma filter_keeps self record : fst (filter self record) = true.
Proof. unfold filter. by destruct (msg record). Qed.

Lemma filter_loop_spec self patterns message record :
  filter_loop self patterns message record =
  if existsb (fun pattern => str_in pattern message) patterns
  then set_msg (_mask_sensitive_data self (msg record)) record
  else record.
Proof.
  induction patterns as [|p ps IH]; cbn; [done|].
  destruct (str_in p message); [done|apply IH].
Qed.

Lemma match_at_nil pattern : match_at pattern [] = None.
Proof.
  unfold match_at, group1. rewrite bt_seq. cbn [bt].
  destruct (list_ascii_of_string pattern); reflexivity.
Qed.

Lemma match_at_strip pattern s :
  match_at pattern s <> None ->
  strip_ignorecase (list_ascii_of_string pattern) s <> None.
Proof.
  unfold match_at, group1. rewrite bt_seq. cbn [bt].
  by destruct (strip_ignorecase _ s).
Qed.

Lemma strip_starts_with l s :
  strip_ignorecase l s <> None -> starts_with (map lower l) (map lower s) = true.
Proof.
  revert s. induction l as [|a l IH]; intros [|c s];
    cbn [strip_ignorecase starts_with map]; try done.
  destruct (Ascii.eqb (lower a) (lower c)); [|done].
  intros H. cbn [andb]. by apply IH.
Qed.

Lemma occurs_in_drop needle hay i :
  starts_with needle (drop i hay) = true -> occurs_in needle hay = true.
Proof.
  revert i. induction hay as [|c hay IH]; intros i.
  - rewrite drop_nil. cbn. by intros ->.
  - destruct i as [|i]; cbn [drop].
    + intros H. cbn [occurs_in]. by rewrite H.
    + intros H. cbn [occurs_in]. rewrite (IH i H). apply orb_true_r.
Qed.

Lemma map_drop_lower i (s : text) : map lower (drop i s) = drop i (map lower s).
Proof.
  revert i. induction s as [|c s IH]; intros [|i]; cbn [drop map]; try done.
Qed.

(** A key written in lower case that the expression finds somewhere in the
    message also passes the test [pattern in message] of [filter], so the
    message is masked. *)
Lemma filter_masks_lowercase_key self record pattern i :
  In pattern self ->
  str_lower pattern = pattern ->
  match_at pattern (drop i (list_ascii_of_string (msg record))) <> None ->
  msg (snd (filter self record)) = _mask_sensitive_data self (msg record).
Proof.
  intros Hin Hlow Hm. unfold filter.
  destruct (msg record) as [|c m] eqn:E.
  { exfalso. apply Hm. cbn. rewrite drop_nil. apply match_at_nil. }
  rewrite <- E in *. cbn [snd]. rewrite filter_loop_spec.
  assert (existsb (fun p => str_in p (str_lower (msg record))) self = true) as ->.
  { apply existsb_exists. exists pattern. split; [done|].
    unfold str_in, str_lower. rewrite list_ascii_of_string_of_list_ascii.
    apply (occurs_in_drop _ _ i). rewrite <- map_drop_lower.
    assert (map lower (list_ascii_of_string pattern) = list_ascii_of_string pattern) as <-.
    { unfold str_lower in Hlow. rewrite <- Hlow at 2.
      by rewrite list_ascii_of_string_of_list_ascii. }
    by apply strip_starts_with, match_at_strip. }
  reflexivity.
Qed.

Local Open Scope string_scope.

(** The messages of the specification and of the tests of the filter. *)
Lemma masking_examples :
  let self := SensitiveDataFilter [] in
  masked self "password=secret123" = "password=***MASKED***" /\
  str_in "***MASKED***" (masked self "password=secret123") = true /\
  str_in "secret123" (masked self "password=secret123") = false /\
  masked self "normal text" = "normal text" /\
  masked self "Login with password=secret and token=abc123"
    = "Login with password=***MASKED*** and token=***MASKED***" /\
  masked self "Config has secret: mysecretvalue" = "Config has secret: ***MASKED***" /\
  masked self "PASSWORD=secret" = "PASSWORD=***MASKED***" /\
  masked self "{'api_key': 'k1', 'pwd':'p'}"
    = "{'api_key': '***MASKED***', 'pwd':'***MASKED***'}".
Proof. vm_compute. split_and!; reflexivity. Qed.

(** C7. A key added with capital letters is never found by [filter]: the
    message is lower-cased, the key is not, and [pattern in message] fails.
    The masking itself, had it been called, replaces the value. *)
Theorem capital_key_is_not_masked :
  let self := SensitiveDataFilter ["SSN"] in
  let record := makeRecord "app" INFO "SSN=123-45-6789" in
  In "SSN" self /\
  filter self record = (true, record) /\
  _mask_sensitive_data self (msg record) = "SSN=***MASKED***" /\
  msg (snd (filter (SensitiveDataFilter ["ssn"]) record)) = "SSN=***MASKED***".
Proof.
  split_and!; [|vm_compute; reflexivity..].
  vm_compute. tauto.
Qed.

End FiltersFacts.

(** * Properties of the formatters *)

Module FormattersFacts.
Import Formatters.
Local Open Scope string_scope.

(** When [ColoredFormatter.format] returns, the record is what the plain
    [logging.Formatter.format] leaves: the message cache is set and the
    severity name is the one the record came with. *)
Lemma ColoredFormatter_returns fmt r s r' :
  ColoredFormatter_format fmt r = (Ok s, r') ->
  r' = set_message (msg r) r.
Proof.
  unfold ColoredFormatter_format, Formatter_format, bind, get_self, update, ret, raise.
  destruct r as [nm no lv ms md fn ln me env ex].
  cbn -[dict_get COLORS formatMessage].
  destruct (dict_get COLORS lv); cbn -[formatMessage];
    match goal with
    | |- context [formatMessage fmt ?x] => destruct (formatMessage fmt x)
    end; cbn; intros [= <- <-]; reflexivity.
Qed.

Lemma ColoredFormatter_restores fmt r s r' :
  ColoredFormatter_format fmt r = (Ok s, r') ->
  levelname r' = levelname r /\
  (forall fmt', fst (Formatter_format fmt' r') = fst (Formatter_format fmt' r)) /\
  (forall now, JSONFormatter_format now r' = JSONFormatter_format now r).
Proof.
  intros H. apply ColoredFormatter_returns in H. subst r'.
  destruct r as [nm no lv ms md fn ln me env ex]. split_and!; done.
Qed.

(** C8. When the inherited [format] raises (here the format names an
    attribute the record does not have), [ColoredFormatter.format] leaves
    without restoring the severity name: the record keeps the colour codes,
    and a plain formatter and the JSON formatter run afterwards on the same
    record print the wrapped name where they would have printed INFO. *)
Theorem colored_levelname_leaks_when_format_raises :
  let r' := exec (ColoredFormatter_format leaking_format) info_record in
  fst (ColoredFormatter_format leaking_format info_record) = Raise ValueError /\
  levelname info_record = "INFO" /\
  levelname r' = ESC ++ "[32mINFO" ++ ESC ++ "[0m" /\
  fst (Formatter_format plain_format info_record) = Ok "INFO | started" /\
  fst (Formatter_format plain_format r')
    = Ok (ESC ++ "[32mINFO" ++ ESC ++ "[0m | started") /\
  JSONFormatter_format "t" info_record !! "level" = Some (JStr "INFO") /\
  JSONFormatter_format "t" r' !! "level"
    = Some (JStr (ESC ++ "[32mINFO" ++ ESC ++ "[0m")).
Proof. vm_compute. split_and!; reflexivity. Qed.

End FormattersFacts.

(** * Properties of the manager *)

Module LoggerFacts.
Import Logger.
Local Open Scope string_scope.

Lemma append_inv_head (p s1 s2 : string) : p ++ s1 = p ++ s2 -> s1 = s2.
Proof.
  induction p as [|c p IH]; cbn; [done|]. intros H. injection H as H. by apply IH.
Qed.

(** For one application name the key determines the environment. *)
Lemma instance_key_same_name c1 c2 :
  name c1 = name c2 ->
  instance_key c1 = instance_key c2 <-> environment c1 = environment c2.
Proof.
  intros Hn. unfold instance_key. rewrite Hn. split.
  - intros H. apply append_inv_head in H. by apply (append_inv_head "_") in H.
  - by intros ->.
Qed.

(** What one construction request does to the registry. *)
Lemma LoggerManager_spec cfg ok rt :
  wf rt ->
  let r := fst (LoggerManager cfg ok rt) in
  let rt' := snd (LoggerManager cfg ok rt) in
  wf rt' /\
  (exists i, _instances rt' !! instance_key cfg = Some i /\
             (forall j, r = Ok j -> j = i)) /\
  (forall key i, _instances rt !! key = Some i -> _instances rt' !! key = Some i).
Proof.
  intros [Hlt Hinj]. unfold LoggerManager, __new__, __init__, bind, get_self, update, ret, raise.
  destruct (_instances rt !! instance_key cfg) as [i|] eqn:Hk; cbn.
  - pose proof (Hlt _ _ Hk) as Hi.
    destruct (lookup_lt_is_Some_2 (heap rt) i Hi) as [m Hm]. rewrite Hm.
    destruct (_initialized m); cbn.
    + split_and!; [by split| |done]. exists i. split; [done|]. by intros j [= ->].
    + destruct ok; cbn.
      * split_and!; [|exists i; split; [done|by intros j [= ->]]|done].
        split; cbn; [|done]. intros key j Hj. rewrite !length_insert. eauto.
      * split_and!; [|exists i; split; [done|by intros j [= ->]]|done].
        split; cbn; [|done]. intros key j Hj. rewrite !length_insert. eauto.
  - rewrite lookup_app_r by lia. rewrite Nat.sub_diag. cbn.
    assert (wf_new : forall h', length h' = S (length (heap rt)) ->
              wf (mkRuntime (<[instance_key cfg := length (heap rt)]> (_instances rt)) h')).
    { intros h' Hlen. split; cbn.
      - intros key i. rewrite lookup_insert. case_decide.
        + intros [= <-]. lia.
        + intros Hi. apply Hlt in Hi. lia.
      - intros k1 k2 i. rewrite !lookup_insert. repeat case_decide; subst; try done.
        + intros [= <-] Hi. apply Hlt in Hi. lia.
        + intros Hi [= <-]. apply Hlt in Hi. lia.
        + apply Hinj. }
    assert (mono : forall key i, _instances rt !! key = Some i ->
              <[instance_key cfg := length (heap rt)]> (_instances rt) !! key = Some i).
    { intros key i Hi. rewrite lookup_insert_ne; [done|]. intros <-. congruence. }
    destruct ok; cbn.
    + split_and!; [| |done].
      * apply wf_new. unfold set_attrs. cbn [heap]. rewrite !length_insert, length_app. cbn. lia.
      * exists (length (heap rt)). rewrite lookup_insert_eq. split; [done|]. by intros j [= ->].
    + split_and!; [| |done].
      * apply wf_new. unfold set_attrs. cbn [heap]. rewrite !length_insert, length_app. cbn. lia.
      * exists (length (heap rt)). rewrite lookup_insert_eq. split; [done|]. by intros j [= ->].
Qed.

Lemma wf_start : wf start.
Proof. split; cbn; intros *; by rewrite lookup_empty. Qed.

Lemma wf_reset rt : wf rt -> wf (exec reset_instances rt).
Proof. intros _. split; cbn; intros *; by rewrite lookup_empty. Qed.

(** After a sequence of requests, every request that returned an instance
    finds it registered under its key. *)
Lemma construct_all_spec requests : forall rt,
  wf rt ->
  let rs := fst (construct_all requests rt) in
  let rt' := snd (construct_all requests rt) in
  wf rt' /\
  (forall key i, _instances rt !! key = Some i -> _instances rt' !! key = Some i) /\
  (forall n cfg ok i,
     requests !! n = Some (cfg, ok) -> rs !! n = Some (Ok i) ->
     _instances rt' !! instance_key cfg = Some i).
Proof.
  induction requests as [|[cfg ok] rest IH]; intros rt Hwf.
  - cbn. split_and!; [done|done|]. intros n ? ? ? Hn. by rewrite lookup_nil in Hn.
  - cbn [construct_all].
    destruct (LoggerManager_spec cfg ok rt Hwf) as (Hwf1 & (i0 & Hi0 & Hr) & Hmono).
    destruct (LoggerManager cfg ok rt) as [r rt1] eqn:E1. cbn [fst snd] in *.
    destruct (IH rt1 Hwf1) as (Hwf2 & Hmono2 & Hres).
    destruct (construct_all rest rt1) as [rs rt2] eqn:E2. cbn [fst snd] in *.
    split_and!; [done|by eauto|].
    intros [|n] cfg' ok' i; cbn.
    + intros [= <- <-] [= ->]. apply Hmono2. by rewrite (Hr i eq_refl).
    + apply Hres.
Qed.


(** A request whose key is already registered with an initialised instance
    returns that instance and changes nothing: its configuration is not
    looked at. *)
Lemma second_request_ignored c1 c2 ok2 rt i rt1 :
  wf rt -> instance_key c1 = instance_key c2 ->
  LoggerManager c1 true rt = (Ok i, rt1) ->
  LoggerManager c2 ok2 rt1 = (Ok i, rt1).
Proof.
  intros [Hlt Hinj] Hkey.
  unfold LoggerManager, __new__, __init__, bind, get_self, update, ret, raise.
  rewrite <- Hkey.
  destruct (_instances rt !! instance_key c1) as [j|] eqn:Hk; cbn.
  - pose proof (Hlt _ _ Hk) as Hj.
    destruct (lookup_lt_is_Some_2 (heap rt) j Hj) as [m Hm]. rewrite Hm.
    destruct (_initialized m) eqn:Hi; cbn.
    + intros [= <- <-]. rewrite Hk. cbn. rewrite Hm, Hi. done.
    + intros [= <- <-]. cbn. rewrite Hk. cbn.
      rewrite list_lookup_insert_eq by (by rewrite length_insert). done.
  - rewrite lookup_app_r by lia. rewrite Nat.sub_diag. cbn.
    intros [= <- <-]. cbn. rewrite lookup_insert_eq. cbn.
    rewrite list_lookup_insert_eq; [done|].
    rewrite length_insert, length_app. cbn. lia.
Qed.

(** C9. Among the construction requests of a run (no reset in between), two
    requests for the same application name that both return an instance
    return the same one when their environments are equal, and different
    ones when their environments differ. *)
Theorem same_identity_same_instance
    (requests : list (LogConfig * bool)) (rt : Runtime) :
  wf rt ->
  forall n1 n2 c1 ok1 c2 ok2 i1 i2,
    requests !! n1 = Some (c1, ok1) ->
    requests !! n2 = Some (c2, ok2) ->
    fst (construct_all requests rt) !! n1 = Some (Ok i1) ->
    fst (construct_all requests rt) !! n2 = Some (Ok i2) ->
    name c1 = name c2 ->
    (environment c1 = environment c2 -> i1 = i2) /\
    (environment c1 <> environment c2 -> i1 <> i2).
Proof.
  intros Hwf n1 n2 c1 ok1 c2 ok2 i1 i2 H1 H2 R1 R2 Hn.
  destruct (construct_all_spec requests rt Hwf) as ([_ Hinj] & _ & Hres).
  pose proof (Hres _ _ _ _ H1 R1) as K1.
  pose proof (Hres _ _ _ _ H2 R2) as K2.
  split.
  - intros He. apply (instance_key_same_name _ _ Hn) in He.
    rewrite He in K1. congruence.
  - intros He ->. apply He. apply (instance_key_same_name _ _ Hn). eauto.
Qed.

Lemma same_identity_same_instance_witness :
  fst (construct_all svc_requests start) = [Ok 0; Ok 0; Ok 1]%nat /\
  (0 = 0 /\ 0 <> 1)%nat.
Proof.
  split; [vm_compute; reflexivity|].
  split.
  - refine (proj1 (same_identity_same_instance svc_requests start wf_start
              0 1 _ _ _ _ 0 0 eq_refl eq_refl _ _ eq_refl)%nat _);
      vm_compute; reflexivity.
  - refine (proj2 (same_identity_same_instance svc_requests start wf_start
              0 2 _ _ _ _ 0 1 eq_refl eq_refl _ _ eq_refl)%nat _);
      [vm_compute; reflexivity | vm_compute; reflexivity | discriminate].
Defined.

(** C10. The key is the concatenation name + "_" + environment, so the
    identities ("a_b", "c") and ("a", "b_c") have one key: whatever the
    registry holds, the second request returns the instance of the first and
    leaves it as it was; from an empty registry that instance keeps the
    configuration of the first request. *)
Theorem colliding_keys_share_instance :
  let c1 := LogConfig_for "a_b" "c" in
  let c2 := LogConfig_for "a" "b_c" in
  (name c1, environment c1) <> (name c2, environment c2) /\
  instance_key c1 = instance_key c2 /\
  (forall rt ok2 i rt1,
     wf rt ->
     LoggerManager c1 true rt = (Ok i, rt1) ->
     LoggerManager c2 ok2 rt1 = (Ok i, rt1)) /\
  (forall ok2,
     let rt1 := snd (LoggerManager c1 true start) in
     let rt2 := snd (LoggerManager c2 ok2 rt1) in
     fst (LoggerManager c1 true start) = Ok 0%nat /\
     fst (LoggerManager c2 ok2 rt1) = Ok 0%nat /\
     heap rt2 !! 0%nat = Some (mkManager (Some c1) true)).
Proof.
  intros c1 c2. split_and!.
  - discriminate.
  - reflexivity.
  - intros rt ok2 i rt1 Hwf. by apply second_request_ignored.
  - intros [|]; vm_compute; done.
Qed.

Lemma colliding_keys_share_instance_witness :
  LoggerManager (LogConfig_for "a" "b_c") true
    (snd (LoggerManager (LogConfig_for "a_b" "c") true start))
  = (Ok 0%nat, snd (LoggerManager (LogConfig_for "a_b" "c") true start)).
Proof.
  refine (proj1 (proj2 (proj2 colliding_keys_share_instance)) start true 0%nat _ wf_start _).
  vm_compute. reflexivity.
Defined.

End LoggerFacts.

(** * What a run leaves behind *)

Module HandlerRuns.
Import Handlers HandlersFacts HandlerViews.

(** ** What one write and one step do *)

Lemma write_batch_effect w b h :
  let h' := exec (_write_batch w b) h in
  (table h' = table h ++ b /\ logs_written h' = logs_written h + len b /\
   logs_failed h' = logs_failed h \/
   table h' = table h /\ logs_written h' = logs_written h /\
   logs_failed h' = logs_failed h + len b).
Proof.
  break_handler h. destruct b as [|r b].
  - left. unfold len. cbn. rewrite app_nil_r. split_and!; [done|lia|done].
  - destruct w as [[] [] [] []], cnd, conn as [[]|], ver; cbn; auto.
Qed.

Lemma writer_step_exec w h :
  exec (writer_step w) h =
  match writer_thread h with
  | Some Alive =>
      if running h then
        if PrimFloat.ltb (flush_interval (config h)) 0 then h
        else if batch_size (config h) <=? len (batch (pulled h))
             then set_batch [] (exec (_write_batch w (batch (pulled h))) (pulled h))
             else pulled h
      else set_writer_thread (Some Exited) (exec (_write_batch w (batch h)) h)
  | _ => h
  end.
Proof.
  unfold writer_step, exec at 1, bind, get_self.
  destruct (writer_thread h) as [[]|]; [|done|done].
  destruct (running h).
  - destruct (PrimFloat.ltb (flush_interval (config h)) 0) eqn:Ht.
    + by rewrite loop_body_bad_timeout.
    + destruct (Z.leb_spec (batch_size (config h)) (len (batch (pulled h)))).
      * by rewrite loop_body_threshold.
      * by rewrite loop_body_below.
  - destruct (batch h) as [|r b] eqn:Hb; [done|].
    pose proof (write_batch_returns w (r :: b) h) as [[] Hr].
    unfold exec, update. destruct (_write_batch w (r :: b) h) as [[[]|e] h']; cbn in *; done.
Qed.

Lemma pulled_frame h :
  table (pulled h) = table h /\ logs_written (pulled h) = logs_written h /\
  logs_failed (pulled h) = logs_failed h /\ config (pulled h) = config h /\
  writer_thread (pulled h) = writer_thread h /\ running (pulled h) = running h /\
  db_trace (pulled h) = db_trace h /\
  batch (pulled h) ++ log_queue (pulled h) = batch h ++ log_queue h.
Proof.
  unfold pulled. destruct (log_queue h) as [|r q] eqn:E; cbn; rewrite ?E; split_and!; try done.
  by rewrite <- app_assoc.
Qed.

Lemma emit_frame record h :
  let h' := exec (emit record) h in
  table h' = table h /\ logs_written h' = logs_written h /\
  logs_failed h' = logs_failed h /\ config h' = config h /\
  writer_thread h' = writer_thread h /\ running h' = running h /\
  batch h' = batch h /\ db_trace h' = db_trace h.
Proof.
  unfold exec. rewrite emit_emitted. cbn [snd]. unfold emitted.
  destruct (full h); [|done]. destruct (log_queue h); [done|].
  destruct (full _); done.
Qed.

Lemma event_config e h : config (exec (do_event e) h) = config h.
Proof.
  destruct e as [record|w|]; cbn [do_event].
  - apply emit_frame.
  - rewrite writer_step_exec.
    destruct (writer_thread h) as [[]|]; [|done|done].
    destruct (running h).
    + destruct (PrimFloat.ltb _ _); [done|]. destruct (_ <=? _).
      * cbn. destruct (write_batch_frame w (batch (pulled h)) (pulled h)) as (_ & _ & -> & _).
        apply pulled_frame.
      * apply pulled_frame.
    + cbn. apply write_batch_frame.
  - done.
Qed.

Lemma run_config es h : config (run es h) = config h.
Proof.
  revert h. induction es as [|e es IH]; intros h; [done|].
  cbn [run]. rewrite IH. apply event_config.
Qed.

(** ** The records in the pipeline *)

Lemma emit_flow record h :
  flow (exec (emit record) h) `sublist_of` flow h ++ [record].
Proof.
  destruct (emit_frame record h) as (Ht & _ & _ & _ & Hw & _ & Hb & _).
  unfold flow, pending. rewrite Ht, Hw, Hb. rewrite <- !app_assoc.
  do 2 (apply sublist_app; [done|]).
  unfold exec. rewrite emit_emitted. cbn [snd]. unfold emitted.
  destruct (full h); [|done].
  destruct (log_queue h) as [|x q] eqn:E; [rewrite E; apply sublist_nil_l|].
  destruct (full _); cbn.
  - apply sublist_cons, sublist_inserts_r. done.
  - by apply sublist_cons.
Qed.

Lemma write_flow w h b q :
  table (exec (_write_batch w b) h) ++ q `sublist_of` table h ++ b ++ q.
Proof.
  destruct (write_batch_effect w b h) as [(-> & _)|(-> & _)].
  - by rewrite <- app_assoc.
  - apply sublist_app; [done|]. by apply sublist_inserts_l.
Qed.

Lemma step_flow w h : flow (exec (writer_step w) h) `sublist_of` flow h.
Proof.
  rewrite writer_step_exec.
  destruct (writer_thread h) as [[]|] eqn:Hw; [|done|done].
  assert (flow h = table h ++ batch h ++ log_queue h) as Hf
    by (unfold flow, pending; by rewrite Hw).
  destruct (running h).
  - destruct (PrimFloat.ltb _ _); [done|].
    destruct (pulled_frame h) as (Ht & _ & _ & _ & Hw' & _ & _ & Hbq).
    rewrite Hw in Hw'.
    destruct (_ <=? _).
    + destruct (write_batch_frame w (batch (pulled h)) (pulled h)) as (Hq & _ & _ & _ & Hw'').
      rewrite Hf. unfold flow, pending. cbn. rewrite Hw'', Hw', Hq. cbn.
      rewrite <- Hbq, <- Ht. apply write_flow.
    + rewrite Hf. unfold flow, pending. rewrite Hw', Ht. by rewrite Hbq.
  - destruct (write_batch_frame w (batch h) h) as (Hq & _).
    rewrite Hf. unfold flow, pending. cbn. rewrite Hq. apply write_flow.
Qed.

Lemma run_flow es h :
  flow (run es h) `sublist_of` flow h ++ emitted_records es.
Proof.
  revert h. induction es as [|e es IH]; intros h.
  - cbn. by rewrite app_nil_r.
  - cbn [run]. etrans; [apply IH|].
    destruct e as [record|w|]; cbn [do_event].
    + change (emitted_records (Emit record :: es)) with (record :: emitted_records es).
      replace (flow h ++ record :: emitted_records es)
        with ((flow h ++ [record]) ++ emitted_records es)
        by (by rewrite <- app_assoc).
      apply sublist_app; [apply emit_flow|done].
    + change (emitted_records (Step w :: es)) with (emitted_records es).
      apply sublist_app; [apply step_flow|done].
    + done.
Qed.

Lemma init_fields cfg driver w :
  let h := __init__ cfg driver w in
  config h = cfg /\ log_queue h = [] /\ batch h = [] /\ table h = [] /\
  logs_written h = 0 /\ logs_failed h = 0 /\
  (writer_thread h = Some Alive /\ running h = true \/
   writer_thread h = None /\ running h = false).
Proof. destruct w as [[] ? ? ?], driver; cbn; split_and!; auto. Qed.

(** X1. The records stored, the records the writer holds and the records
    queued, in this order, are records that were emitted, in the order of
    their emission and each at most once: the handler never stores a record
    that was not emitted, never stores one twice and never reorders. *)
Theorem records_keep_their_order cfg driver w (es : list event) :
  let h := run es (__init__ cfg driver w) in
  table h ++ pending h ++ log_queue h `sublist_of` emitted_records es.
Proof.
  intros h. pose proof (run_flow es (__init__ cfg driver w)) as H.
  destruct (init_fields cfg driver w) as (_ & Hq & Hb & Ht & _ & _ & Hw).
  assert (flow (__init__ cfg driver w) = []) as E.
  { unfold flow, pending. rewrite Hq, Hb, Ht. by destruct (writer_thread _) as [[]|]. }
  by rewrite E in H.
Qed.

(** ** Counting the records *)

Lemma emit_accounted record h :
  accounted (exec (emit record) h) <= accounted h + 1 /\
  (full h = false -> accounted (exec (emit record) h) = accounted h + 1).
Proof.
  destruct (emit_frame record h) as (_ & Hw & Hf & _ & Ht & _ & Hb & _).
  unfold accounted, pending. rewrite Hw, Hf, Ht, Hb.
  unfold exec. rewrite emit_emitted. cbn [snd]. unfold emitted.
  destruct (full h).
  - split; [|done]. destruct (log_queue h) as [|x q] eqn:E; [rewrite E; lia|].
    destruct (full _); cbn; unfold len; rewrite ?length_app; cbn; lia.
  - cbn. unfold len. rewrite length_app. cbn. lia.
Qed.

Lemma step_accounted w h :
  accounted (exec (writer_step w) h) = accounted h /\
  (logs_written h = len (table h) ->
   logs_written (exec (writer_step w) h) = len (table (exec (writer_step w) h))).
Proof.
  rewrite writer_step_exec.
  destruct (writer_thread h) as [[]|] eqn:Hw; [|done|done].
  destruct (running h).
  - destruct (PrimFloat.ltb _ _); [done|].
    destruct (pulled_frame h) as (Ht & Hlw & Hlf & _ & Hw' & _ & _ & Hbq).
    rewrite Hw in Hw'.
    assert (len (batch (pulled h)) + len (log_queue (pulled h))
            = len (batch h) + len (log_queue h)) as Hlen.
    { unfold len. apply (f_equal length) in Hbq. rewrite !length_app in Hbq. lia. }
    destruct (_ <=? _).
    + destruct (write_batch_frame w (batch (pulled h)) (pulled h)) as (Hq & _ & _ & _ & Hw'').
      unfold accounted, pending. cbn. rewrite Hw'', Hw', Hq, Hw.
      destruct (write_batch_effect w (batch (pulled h)) (pulled h))
        as [(E1 & E2 & E3)|(E1 & E2 & E3)]; rewrite E1, E2, ?E3, Ht, Hlw, Hlf;
        unfold len in *; rewrite ?length_app; cbn [length]; split; lia.
    + unfold accounted, pending. rewrite Hw', Hw, Hlw, Hlf, Ht. split; [lia|done].
  - destruct (write_batch_frame w (batch h) h) as (Hq & _).
    unfold accounted, pending. cbn. rewrite Hq, Hw.
    destruct (write_batch_effect w (batch h) h)
      as [(E1 & E2 & E3)|(E1 & E2 & E3)]; rewrite E1, E2, ?E3; unfold len in *;
      rewrite ?length_app; cbn; split; lia.
Qed.

Lemma unbounded_never_full h :
  buffer_size (config h) <= 0 -> full h = false.
Proof.
  intros H. unfold full. cbn. destruct (Z.ltb_spec 0 (buffer_size (config h))); [lia|done].
Qed.

Lemma run_accounted es h :
  let h' := run es h in
  accounted h' <= accounted h + len (emitted_records es) /\
  (buffer_size (config h) <= 0 ->
   accounted h' = accounted h + len (emitted_records es)) /\
  (logs_written h = len (table h) -> logs_written h' = len (table h')).
Proof.
  revert h. induction es as [|e es IH]; intros h.
  - cbn. unfold len. cbn. split_and!; [lia|lia|done].
  - cbn [run]. destruct (IH (exec (do_event e) h)) as (I1 & I2 & I3).
    rewrite event_config in I2.
    destruct e as [record|w|]; cbn [do_event] in *.
    + change (emitted_records (Emit record :: es)) with (record :: emitted_records es).
      destruct (emit_accounted record h) as (A1 & A2).
      destruct (emit_frame record h) as (Ht & Hw & _).
      unfold len in *. cbn [length]. split_and!.
      * lia.
      * intros Hb. specialize (I2 Hb). specialize (A2 (unbounded_never_full h Hb)). lia.
      * intros K. apply I3. by rewrite Ht, Hw.
    + change (emitted_records (Step w :: es)) with (emitted_records es).
      destruct (step_accounted w h) as (A1 & A2).
      split_and!; [lia| |by auto]. intros Hb. specialize (I2 Hb). lia.
    + change (emitted_records (Stop :: es)) with (emitted_records es).
      assert (accounted (exec (update (set_running false)) h) = accounted h) as E by done.
      rewrite E in *. split_and!; [lia|done|done].
Qed.

Lemma event_counters e h :
  logs_written h <= logs_written (exec (do_event e) h) /\
  logs_failed h <= logs_failed (exec (do_event e) h).
Proof.
  assert (forall w b h0, logs_written h0 <= logs_written (exec (_write_batch w b) h0) /\
                         logs_failed h0 <= logs_failed (exec (_write_batch w b) h0)) as Hwb.
  { intros w b h0. destruct (write_batch_effect w b h0) as [(_ & -> & ->)|(_ & -> & ->)];
      unfold len; lia. }
  destruct e as [record|w|]; cbn [do_event].
  - destruct (emit_frame record h) as (_ & -> & -> & _). lia.
  - rewrite writer_step_exec.
    destruct (writer_thread h) as [[]|]; [|lia|lia].
    destruct (pulled_frame h) as (_ & Hlw & Hlf & _).
    destruct (running h).
    + destruct (PrimFloat.ltb _ _); [lia|]. destruct (_ <=? _).
      * cbn. specialize (Hwb w (batch (pulled h)) (pulled h)). lia.
      * lia.
    + cbn. apply Hwb.
  - cbn. lia.
Qed.

Lemma run_counters es h :
  logs_written h <= logs_written (run es h) /\
  logs_failed h <= logs_failed (run es h).
Proof.
  revert h. induction es as [|e es IH]; intros h; [cbn; lia|].
  cbn [run]. specialize (IH (exec (do_event e) h)).
  pose proof (event_counters e h). lia.
Qed.

(** The balance of a run that starts from a new handler. *)
Lemma init_run_accounted cfg driver w (es : list event) :
  let h := run es (__init__ cfg driver w) in
  logs_written h = len (table h) /\
  0 <= logs_failed h /\
  logs_written h + logs_failed h + len (pending h) + len (log_queue h)
    <= len (emitted_records es).
Proof.
  intros h. destruct (init_fields cfg driver w) as (_ & Hq & Hb & Ht & Hw & Hf & Hthr).
  destruct (run_accounted es (__init__ cfg driver w)) as (A1 & _ & A3).
  destruct (run_counters es (__init__ cfg driver w)) as (_ & C2).
  assert (accounted (__init__ cfg driver w) = 0) as E.
  { unfold accounted, pending. rewrite Hq, Hb, Hw, Hf. by destruct (writer_thread _) as [[]|]. }
  rewrite E in A1. fold h in A1, A3, C2. unfold accounted in A1.
  specialize (A3 ltac:(by rewrite Hw, Ht)).
  split_and!; [done|lia|lia].
Qed.

(** X2. In every run the counter of written records is the number of rows
    stored, neither counter is negative, and the records written, failed,
    held by the writer and queued never add up to more than the records
    emitted: no record is counted twice. *)
Theorem counters_never_exceed_emitted cfg driver w (es : list event) :
  let h := run es (__init__ cfg driver w) in
  logs_written h = len (table h) /\
  0 <= logs_failed h /\
  logs_written h + logs_failed h + len (pending h) + len (log_queue h)
    <= len (emitted_records es).
Proof. exact (init_run_accounted cfg driver w es). Qed.

(** X3. With an unbounded queue ([buffer_size] zero or negative) nothing is
    evicted: every record emitted is queued, held by the writer, written or
    counted as failed, and a sequence of emits appends all its records to
    the queue. *)
Theorem unbounded_queue_loses_nothing cfg driver w (es : list event) :
  buffer_size cfg <= 0 ->
  let h := run es (__init__ cfg driver w) in
  logs_written h + logs_failed h + len (pending h) + len (log_queue h)
    = len (emitted_records es) /\
  forall records, log_queue (emit_all records h) = log_queue h ++ records.
Proof.
  intros Hb h. destruct (init_fields cfg driver w) as (Hc & Hq & Hbt & Ht & Hw & Hf & Hthr).
  split.
  - destruct (run_accounted es (__init__ cfg driver w)) as (_ & A2 & _).
    rewrite Hc in A2. specialize (A2 Hb).
    assert (accounted (__init__ cfg driver w) = 0) as E.
    { unfold accounted, pending. rewrite Hq, Hbt, Hw, Hf. by destruct (writer_thread _) as [[]|]. }
    rewrite E in A2. fold h in A2. unfold accounted in A2. lia.
  - assert (buffer_size (config h) <= 0) as Hb'.
    { unfold h. by rewrite run_config, Hc. }
    clearbody h. intros records. revert h Hb'.
    induction records as [|r rs IH]; intros h Hb'.
    + by rewrite app_nil_r.
    + unfold emit_all in *. cbn [map run do_event].
      rewrite IH by (by rewrite emit_config).
      unfold exec. rewrite emit_emitted. cbn [snd]. unfold emitted.
      rewrite unbounded_never_full by done. cbn. by rewrite <- app_assoc.
Qed.

Lemma unbounded_queue_loses_nothing_witness :
  log_queue (emit_all [R1; R2; R3]
               (__init__ (mkPostgreSQLConfig "h" 5432 "d" "u" "" "t" "s" "prefer" 0 10 5.0%float)
                         (Some 2) store_up))
  = [R1; R2; R3].
Proof.
  refine (proj2 (unbounded_queue_loses_nothing
            (mkPostgreSQLConfig "h" 5432 "d" "u" "" "t" "s" "prefer" 0 10 5.0%float)
            (Some 2) store_up [] _) [R1; R2; R3]).
  vm_compute. discriminate.
Defined.

(** ** Before shutdown only full batches are written *)

Lemma pulled_batch_length h :
  len (batch (pulled h)) <= len (batch h) + 1.
Proof.
  unfold pulled, len. destruct (log_queue h); cbn; rewrite ?length_app; cbn; lia.
Qed.

Lemma full_batches_event e h :
  is_stop e = false -> 1 <= batch_size (config h) ->
  full_batches h -> full_batches (exec (do_event e) h).
Proof.
  intros He Hbs (Dw & Df & Hlen & Hthr). unfold full_batches.
  rewrite event_config.
  destruct e as [record|w|]; [| |done]; cbn [do_event].
  - destruct (emit_frame record h) as (_ & -> & -> & _ & -> & -> & -> & _). done.
  - rewrite writer_step_exec.
    destruct Hthr as [[Ht Hr]| Ht]; rewrite Ht; [|by split_and!; auto].
    rewrite Hr.
    destruct (PrimFloat.ltb _ _); [by split_and!; auto|].
    destruct (pulled_frame h) as (_ & Hlw & Hlf & Hc & Hw' & Hr' & _).
    pose proof (pulled_batch_length h) as Hp.
    destruct (Z.leb_spec (batch_size (config h)) (len (batch (pulled h)))) as [Hge|Hlt].
    + assert (len (batch (pulled h)) = batch_size (config h)) as Hex by lia.
      destruct (write_batch_frame w (batch (pulled h)) (pulled h)) as (_ & Hr'' & _ & _ & Hw'').
      cbn. rewrite Hw'', Hr'', Hw', Hr', Ht, Hr.
      destruct (write_batch_effect w (batch (pulled h)) (pulled h))
        as [(_ & -> & ->)|(_ & -> & ->)]; rewrite Hex, Hlw, Hlf;
        split_and!; auto using Z.divide_add_r, Z.divide_refl; unfold len; cbn; lia.
    + rewrite Hlw, Hlf, Hw', Hr', Ht, Hr. split_and!; auto.
Qed.

Lemma full_batches_run es h :
  never_stopped es -> 1 <= batch_size (config h) ->
  full_batches h -> full_batches (run es h).
Proof.
  unfold never_stopped. revert h. induction es as [|e es IH]; intros h Hes Hbs Hfb; [done|].
  cbn in Hes. apply andb_true_iff in Hes as [He Hes]. apply negb_true_iff in He.
  cbn [run]. apply IH; [done|by rewrite event_config|by apply full_batches_event].
Qed.

(** X4. As long as [close] is not called, records leave the handler only in
    batches of exactly [batch_size]: both counters are multiples of
    [batch_size] and the writer holds fewer than [batch_size] records.  So
    records that do not fill a batch are neither written nor counted as
    failed, however long the run. *)
Theorem only_full_batches_before_close cfg driver w (es : list event) :
  1 <= batch_size cfg -> never_stopped es ->
  let h := run es (__init__ cfg driver w) in
  (batch_size cfg | logs_written h) /\
  (batch_size cfg | logs_failed h) /\
  len (batch h) < batch_size cfg /\
  (len (emitted_records es) < batch_size cfg -> table h = []).
Proof.
  intros Hbs Hes h. subst h. set (h := run es (__init__ cfg driver w)).
  destruct (init_fields cfg driver w) as (Hc & Hq & Hb & Ht & Hw & Hf & Hthr).
  assert (full_batches (run es (__init__ cfg driver w))) as (Dw & Df & Hlen & _).
  { apply full_batches_run; [done|by rewrite Hc|].
    unfold full_batches. rewrite Hc, Hw, Hf, Hb. split_and!.
    - apply Z.divide_0_r.
    - apply Z.divide_0_r.
    - unfold len. cbn. lia.
    - tauto. }
  rewrite run_config, Hc in Dw, Df, Hlen. fold h in Dw, Df, Hlen.
  split_and!; try done.
  intros Hfew.
  destruct (init_run_accounted cfg driver w es) as (Ktab & Kf & Kle).
  fold h in Ktab, Kf, Kle.
  assert (0 <= len (pending h) /\ 0 <= len (log_queue h)) as [? ?] by (unfold len; lia).
  assert (0 <= logs_written h) as Hnn by (rewrite Ktab; unfold len; lia).
  clearbody h. assert (logs_written h < batch_size cfg) as Hsmall by lia.
  assert (logs_written h = 0) as Hz.
  { destruct (Z.eq_dec (logs_written h) 0) as [|Hne]; [done|].
    apply Z.divide_pos_le in Dw; lia. }
  rewrite Ktab in Hz. unfold len in Hz. destruct (table h); [done|cbn in Hz; lia].
Qed.

Lemma only_full_batches_before_close_witness :
  table (run scenario_events (__init__ scenario_config (Some 2) store_up)) = [].
Proof.
  refine (proj2 (proj2 (proj2 (only_full_batches_before_close
            scenario_config (Some 2) store_up scenario_events _ _))) _).
  - vm_compute. discriminate.
  - vm_compute. reflexivity.
  - vm_compute. reflexivity.
Defined.

(** ** Shutdown *)

(** A handler whose writer thread is not alive is only changed by [emit],
    and only in its queue. *)
Lemma idle_event e h :
  writer_thread h <> Some Alive ->
  let h' := exec (do_event e) h in
  writer_thread h' = writer_thread h /\ table h' = table h /\
  logs_written h' = logs_written h /\ logs_failed h' = logs_failed h /\
  db_trace h' = db_trace h /\
  (is_stop e = true \/ (exists w, e = Step w) -> log_queue h' = log_queue h).
Proof.
  intros Hidle. destruct e as [record|w|]; cbn [do_event].
  - destruct (emit_frame record h) as (-> & -> & -> & _ & -> & _ & _ & ->).
    split_and!; try done. intros [H|[w' H]]; [by cbn in H|by inversion H].
  - rewrite writer_step_exec.
    destruct (writer_thread h) as [[]|] eqn:E; [congruence| |]; rewrite ?E; split_and!; auto.
  - cbn. split_and!; auto.
Qed.

Lemma idle_run es h :
  writer_thread h <> Some Alive ->
  let h' := run es h in
  writer_thread h' = writer_thread h /\ table h' = table h /\
  logs_written h' = logs_written h /\ logs_failed h' = logs_failed h /\
  db_trace h' = db_trace h /\
  (emitted_records es = [] -> log_queue h' = log_queue h).
Proof.
  revert h. induction es as [|e es IH]; intros h Hidle; [done|].
  cbn [run]. destruct (idle_event e h Hidle) as (E1 & E2 & E3 & E4 & E5 & E6).
  destruct (IH (exec (do_event e) h)) as (I1 & I2 & I3 & I4 & I5 & I6); [by rewrite E1|].
  split_and!; try congruence.
  intros Hem. destruct e as [record|w|]; [done| |].
  - rewrite I6 by done. apply E6. eauto.
  - rewrite I6 by done. apply E6. by left.
Qed.



(** ** Reconnection *)

(** X6. One write asks for a connection at most once, and only when the
    handler is disconnected (and a driver is there); when that request fails
    nothing is inserted; when it succeeds and the insert and the commit go
    through, the handler is connected again and the batch is stored. *)
Theorem write_reconnects_once (w : Reply) (b : list LogRecord) (h : PostgreSQLHandler) :
  b <> [] ->
  let h' := exec (_write_batch w b) h in
  exists requests,
    db_trace h' = db_trace h ++ requests /\
    length (List.filter is_connect requests)
      = (if connected h then 0
         else match psycopg_version h with Some _ => 1 | None => 0 end)%nat /\
    (connected h = false -> can_connect w h = false ->
     existsb is_insert requests = false) /\
    (connected h = false -> write_ok w h = true ->
     connected h' = true /\ table h' = table h ++ b /\
     requests = [EvConnect true; EvInsert b true; EvCommit true]).
Proof.
  intros Hb. break_handler h. destruct b as [|r b]; [done|].
  unfold write_ok, can_connect. cbn.
  destruct w as [[] [] [] []], cnd, conn as [[]|], ver; cbn;
    rewrite <- ?app_assoc; cbn [app];
    (eexists; split; [first [reflexivity | symmetry; apply app_nil_r]|]);
    cbn; split_and!; try done.
Qed.

Lemma write_reconnects_once_witness :
  let h := set_connected false (__init__ scenario_config (Some 2) store_up) in
  db_trace (exec (_write_batch store_up [R1]) h)
  = db_trace h ++ [EvConnect true; EvInsert [R1] true; EvCommit true].
Proof.
  intros h.
  destruct (write_reconnects_once store_up [R1] h) as (rq & Htr & _ & _ & Hok);
    [discriminate|].
  destruct Hok as (_ & _ & Erq); [vm_compute; reflexivity..|].
  rewrite <- Erq. exact Htr.
Defined.

(** ** A negative flush interval *)

Lemma negative_timeout_run es h :
  PrimFloat.ltb (flush_interval (config h)) 0 = true ->
  (writer_thread h = Some Alive /\ running h = true \/ writer_thread h = None) ->
  never_stopped es ->
  run es h = emit_all (emitted_records es) h.
Proof.
  unfold never_stopped, emit_all.
  revert h. induction es as [|e es IH]; intros h Ht Hthr Hes; [done|].
  cbn in Hes. apply andb_true_iff in Hes as [He Hes].
  destruct e as [record|w|]; [| |done]; cbn [run do_event].
  - change (emitted_records (Emit record :: es)) with (record :: emitted_records es).
    cbn [map run do_event]. apply IH; [by rewrite emit_config| |done].
    by destruct (emit_frame record h) as (_ & _ & _ & _ & -> & -> & _).
  - change (emitted_records (Step w :: es)) with (emitted_records es).
    assert (exec (writer_step w) h = h) as ->; [|by apply IH].
    rewrite writer_step_exec. destruct Hthr as [[-> ->]| ->]; [|done]. by rewrite Ht.
Qed.

(** X7. A negative [flush_interval] is accepted and makes every pull raise:
    as long as [close] is not called the writer takes nothing from the queue,
    so the handler is in the state the emits alone would have left, and
    nothing is stored or counted. *)
Theorem negative_flush_interval_never_pulls cfg driver w (es : list event) :
  PrimFloat.ltb (flush_interval cfg) 0 = true ->
  never_stopped es ->
  let h := run es (__init__ cfg driver w) in
  h = emit_all (emitted_records es) (__init__ cfg driver w) /\
  table h = [] /\ logs_written h = 0 /\ logs_failed h = 0.
Proof.
  intros Ht Hes h. subst h.
  destruct (init_fields cfg driver w) as (Hc & _ & _ & Htab & Hw & Hf & Hthr).
  rewrite negative_timeout_run; [|by rewrite Hc|tauto|done].
  split; [done|].
  assert (forall rs h0, table (emit_all rs h0) = table h0 /\
            logs_written (emit_all rs h0) = logs_written h0 /\
            logs_failed (emit_all rs h0) = logs_failed h0) as Hem.
  { unfold emit_all. induction rs as [|r rs IH]; intros h0; [done|].
    cbn [map run do_event]. destruct (IH (exec (emit r) h0)) as (-> & -> & ->).
    by destruct (emit_frame r h0) as (-> & -> & -> & _). }
  destruct (Hem (emitted_records es) (__init__ cfg driver w)) as (-> & -> & ->).
  done.
Qed.

Lemma negative_flush_interval_never_pulls_witness :
  let cfg := mkPostgreSQLConfig "h" 5432 "d" "u" "" "t" "s" "prefer" 10 1 (-1.0)%float in
  log_queue (run [Emit R1; Step store_up; Emit R2; Step store_up]
                 (__init__ cfg (Some 2) store_up)) = [R1; R2].
Proof.
  intros cfg.
  rewrite (proj1 (negative_flush_interval_never_pulls cfg (Some 2) store_up
             [Emit R1; Step store_up; Emit R2; Step store_up] eq_refl eq_refl)).
  vm_compute. reflexivity.
Defined.

(** ** Statistics *)

(** X8. What [get_statistics] reports in any state a run reaches: the size
    of a bounded queue is at most [buffer_size], the number of written
    records is the number of rows stored, and a handler reported as
    connected holds a connection. *)
Theorem statistics_are_consistent cfg driver w (es : list event) :
  let h := run es (__init__ cfg driver w) in
  let stats := get_statistics h in
  (0 < buffer_size cfg -> stat_queue_size stats <= buffer_size cfg) /\
  0 <= stat_queue_size stats /\
  stat_logs_written stats = len (table h) /\
  0 <= stat_logs_failed stats /\
  (stat_connected stats = true -> connection h = Some tt).
Proof.
  intros h stats. subst stats h.
  destruct (wf_run es _ (wf_init cfg driver w)) as (Hconn & Hq).
  destruct (init_run_accounted cfg driver w es) as (Hw & Hf & _).
  destruct (init_fields cfg driver w) as (Hc & _).
  rewrite run_config, Hc in Hq. cbn.
  split_and!; try done. unfold len. lia.
Qed.

Lemma statistics_are_consistent_witness :
  stat_queue_size (get_statistics
    (run scenario_events (__init__ scenario_config (Some 2) store_up))) <= 2.
Proof.
  refine (proj1 (statistics_are_consistent scenario_config (Some 2) store_up
                   scenario_events) _).
  vm_compute. reflexivity.
Defined.
(** ** flush *)

Lemma counted_event_handler e t :
  handler (exec (counted_event e) t) = exec (do_event e) (handler t).
Proof.
  destruct e as [record|w|]; cbn [counted_event do_event].
  - unfold counted_emit, emit, try_except, bind, counted_put_nowait, uncounted, exec, ret.
    destruct (put_nowait record (handler t)) as [[[]|e] h] eqn:E1; cbn; [done|].
    destruct e; cbn; try done.
    destruct (get_nowait h) as [[r|e] h'] eqn:E2; cbn; [|done].
    destruct (put_nowait record h') as [[[]|e] h''] eqn:E3; cbn; done.
  - unfold uncounted, exec. by destruct (writer_step w (handler t)).
  - done.
Qed.

Lemma counted_run_handler es t :
  handler (counted_run es t) = run es (handler t).
Proof.
  revert t. induction es as [|e es IH]; intros t; [done|].
  cbn [counted_run run]. by rewrite IH, counted_event_handler.
Qed.

Lemma counted_event_tasks e t :
  wf (handler t) ->
  unfinished_tasks (exec (counted_event e) t)
  = unfinished_tasks t + len (emitted_records [e]).
Proof.
  intros [_ Hq]. destruct e as [record|w|]; cbn [counted_event].
  - unfold counted_emit, try_except, bind, counted_put_nowait, uncounted, exec, ret,
      put_nowait, get_nowait.
    destruct (full (handler t)) eqn:Hfull; cbn; [|done].
    unfold full in Hfull. apply andb_true_iff in Hfull as [Hpos Hlen].
    apply Z.ltb_lt in Hpos. apply Z.leb_le in Hlen. specialize (Hq Hpos).
    destruct (log_queue (handler t)) as [|r q] eqn:Eq.
    { unfold len in Hlen. cbn in Hlen. lia. }
    cbn. unfold full. cbn.
    assert ((0 <? buffer_size (config (handler t)))
            && (buffer_size (config (handler t)) <=? len q) = false) as ->.
    { apply andb_false_iff. right. apply Z.leb_gt.
      unfold len in *. cbn [length] in Hq. lia. }
    done.
  - unfold uncounted, exec. destruct (writer_step w (handler t)). cbn. unfold len. cbn. lia.
  - cbn. unfold len. cbn. lia.
Qed.

Lemma emitted_records_cons e es :
  len (emitted_records (e :: es)) = len (emitted_records [e]) + len (emitted_records es).
Proof. unfold emitted_records, len. destruct e; cbn; lia. Qed.

Lemma counted_run_tasks es t :
  wf (handler t) ->
  unfinished_tasks (counted_run es t) = unfinished_tasks t + len (emitted_records es).
Proof.
  revert t. induction es as [|e es IH]; intros t Hwf.
  - cbn. unfold len. cbn. lia.
  - cbn [counted_run]. rewrite IH.
    + rewrite counted_event_tasks by done. rewrite (emitted_records_cons e es). lia.
    + rewrite counted_event_handler. by apply wf_event.
Qed.


End HandlerRuns.

(** * What the filter changes *)

Module FilterMasking.
Import Filters FiltersFacts FilterViews.

(** ** Messages without a separator *)

Section NoSeparator.
Context {A : Type} (kont : text -> option A).
Hypothesis kont_none : forall s, all_in (fun c => negb (is_separator c)) s -> kont s = None.

Lemma star_no_separator p s :
  all_in (fun c => negb (is_separator c)) s -> star p s kont = None.
Proof.
  induction 1 as [|c s Hc Hs IH]; cbn.
  - apply kont_none. constructor.
  - rewrite IH. cbn. destruct (p c); apply kont_none; by constructor.
Qed.

Lemma opt_no_separator p s :
  all_in (fun c => negb (is_separator c)) s -> bt (Opt p) s kont = None.
Proof.
  intros Hs. destruct Hs as [|c s Hc Hs]; cbn.
  - apply kont_none. constructor.
  - rewrite (kont_none s Hs). cbn. destruct (p c); apply kont_none; by constructor.
Qed.
End NoSeparator.

Lemma strip_ignorecase_suffix l s s' :
  strip_ignorecase l s = Some s' -> exists pre, s = pre ++ s'.
Proof.
  revert s. induction l as [|a l IH]; intros s; cbn.
  - intros [= ->]. by exists [].
  - destruct s as [|c s]; [done|]. destruct (Ascii.eqb _ _); [|done].
    intros H. destruct (IH _ H) as [pre ->]. by exists (c :: pre).
Qed.

Lemma bt_chars_eq {A} l s (kont : text -> option A) :
  bt (Chars l) s kont =
  match strip_ignorecase l s with Some s' => kont s' | None => None end.
Proof. reflexivity. Qed.

Lemma match_at_no_separator pattern s :
  all_in (fun c => negb (is_separator c)) s -> match_at pattern s = None.
Proof.
  intros Hs. unfold match_at, group1. rewrite bt_seq, bt_chars_eq.
  destruct (strip_ignorecase _ s) as [s'|] eqn:E; [|done].
  apply strip_ignorecase_suffix in E as [pre ->].
  apply Forall_app in Hs as [_ Hs].
  rewrite bt_seq. apply opt_no_separator; [|done].
  intros s1 H1. rewrite bt_seq, bt_star. apply star_no_separator; [|done].
  intros s2 H2. rewrite bt_seq. destruct H2 as [|c s2 Hc H2]; cbn; [done|].
  by apply negb_true_iff in Hc as ->.
Qed.

Lemma re_sub_no_separator pattern s :
  all_in (fun c => negb (is_separator c)) s -> re_sub pattern s = s.
Proof.
  unfold re_sub. induction 1 as [|c s Hc Hs IH]; [done|].
  cbn [sub_from]. rewrite match_at_no_separator by (by constructor).
  by rewrite IH.
Qed.

Lemma mask_no_separator self s :
  no_separator s -> _mask_sensitive_data self s = s.
Proof.
  intros Hs. unfold _mask_sensitive_data.
  assert (fold_left (fun t pattern => re_sub pattern t) self (list_ascii_of_string s)
          = list_ascii_of_string s) as ->.
  { induction self as [|p ps IH]; cbn; [done|]. by rewrite re_sub_no_separator. }
  apply string_of_list_ascii_of_string.
Qed.



(** ** The mask shows *)

Lemma occurs_in_cons needle c hay :
  occurs_in needle hay = true -> occurs_in needle (c :: hay) = true.
Proof. intros H. cbn [occurs_in]. rewrite H. apply orb_true_r. Qed.

Lemma starts_with_app needle rest : starts_with needle (needle ++ rest) = true.
Proof.
  induction needle as [|a needle IH]; [by destruct rest|].
  cbn. by rewrite Ascii.eqb_refl.
Qed.

Lemma occurs_in_app needle pre rest :
  occurs_in needle (pre ++ needle ++ rest) = true.
Proof.
  induction pre as [|c pre IH]; cbn [app].
  - destruct (needle ++ rest) eqn:E; cbn [occurs_in]; rewrite <- ?E, starts_with_app; done.
  - by apply occurs_in_cons.
Qed.

(** A pass either leaves the text as it is or puts the mask in. *)
Lemma re_sub_same_or_mask pattern s :
  re_sub pattern s = s \/ has_mask (re_sub pattern s).
Proof.
  unfold re_sub, has_mask. induction s as [|c s IH]; [by left|].
  cbn [sub_from]. destruct (match_at pattern (c :: s)) as [[s1 s2]|].
  - right. apply occurs_in_app.
  - destruct IH as [->|IH]; [by left|right]. by apply occurs_in_cons.
Qed.

Lemma re_sub_match_mask pattern s i :
  match_at pattern (drop i s) <> None -> has_mask (re_sub pattern s).
Proof.
  unfold re_sub, has_mask. revert i. induction s as [|c s IH]; intros i Hm.
  - rewrite drop_nil in Hm. by rewrite match_at_nil in Hm.
  - cbn [sub_from]. destruct (match_at pattern (c :: s)) as [[s1 s2]|] eqn:E.
    + apply occurs_in_app.
    + destruct i as [|i]; [change (drop 0 (c :: s)) with (c :: s) in Hm; by rewrite E in Hm|].
      apply occurs_in_cons, (IH i Hm).
Qed.

Lemma re_sub_keeps_mask pattern s : has_mask s -> has_mask (re_sub pattern s).
Proof. intros Hs. by destruct (re_sub_same_or_mask pattern s) as [->|]. Qed.

Lemma passes_mask self s pattern i :
  In pattern self ->
  match_at pattern (drop i s) <> None ->
  has_mask (fold_left (fun t p => re_sub p t) self s).
Proof.
  assert (forall ps t, has_mask t ->
            has_mask (fold_left (fun t p => re_sub p t) ps t)) as Hkeep.
  { induction ps as [|p ps IH]; intros t Ht; [done|]. cbn. by apply IH, re_sub_keeps_mask. }
  revert s. induction self as [|p ps IH]; intros s Hin Hm; [done|].
  cbn [fold_left]. destruct (re_sub_same_or_mask p s) as [Esame|Hmask].
  - destruct Hin as [->|Hin].
    + apply Hkeep. by apply (re_sub_match_mask _ _ i).
    + rewrite Esame. by apply IH.
  - by apply Hkeep.
Qed.



(** ** The two filters together *)

(** ** One substitution *)


End FilterMasking.

(** * What the formatters return *)

Module FormatterOutput.
Import Formatters FormattersFacts FormatterViews.
Local Open Scope string_scope.

(** ** Formats and missing attributes *)

Lemma formatMessage_fields fmt r :
  (exists s, formatMessage fmt r = Some s) <->
  Forall (fun a => record_attr r a <> None) (fields fmt).
Proof.
  induction fmt as [|[s|a] fmt IH]; cbn [formatMessage fields].
  - split; [constructor|eauto].
  - rewrite <- IH. destruct (formatMessage fmt r); cbn; split; intros [x Hx]; eauto; done.
  - rewrite Forall_cons, <- IH.
    destruct (record_attr r a), (formatMessage fmt r); split;
      try (intros [x Hx]; done); try (intros [? [x Hx]]; done); eauto.
Qed.

Lemma formatMessage_none fmt r :
  formatMessage fmt r = None ->
  exists a, a ∈ fields fmt /\ record_attr r a = None.
Proof.
  induction fmt as [|[s|a] fmt IH]; cbn [formatMessage fields]; [done| |].
  - destruct (formatMessage fmt r); [done|]. intros _. by apply IH.
  - destruct (record_attr r a) eqn:Ea.
    + destruct (formatMessage fmt r); [done|]. intros _.
      destruct IH as (a' & Ha' & Hn); [done|]. exists a'. split; [by right|done].
    + intros _. exists a. split; [by left|done].
Qed.

(** [logging.Formatter.format] raises exactly when the format names an
    attribute the record does not have ([message] is always there: [format]
    sets it first); otherwise it returns and only the message cache of the
    record has changed. *)
Lemma format_raises_on_missing_attribute (fmt : list piece) (r : LogRecord) :
  (fst (Formatter_format fmt r) = Raise ValueError <->
   exists a, a ∈ fields fmt /\ record_attr (set_message (msg r) r) a = None) /\
  (forall s, fst (Formatter_format fmt r) = Ok s ->
     Forall (fun a => record_attr (set_message (msg r) r) a <> None) (fields fmt)) /\
  exec (Formatter_format fmt) r = set_message (msg r) r.
Proof.
  unfold Formatter_format, exec, bind, update, get_self, ret, raise. cbn.
  pose proof (formatMessage_fields fmt (set_message (msg r) r)) as H.
  destruct (formatMessage fmt (set_message (msg r) r)) as [s|] eqn:E; cbn.
  - split_and!; [|intros; apply H; eauto|done].
    split; [done|]. intros (a & Ha & Hn).
    assert (Forall (fun a => record_attr (set_message (msg r) r) a <> None) (fields fmt))
      as HF by (apply H; eauto).
    rewrite Forall_forall in HF. by destruct (HF a Ha).
  - split_and!; [|done|done].
    split; [|done]. intros _. by apply formatMessage_none.
Qed.

(** ** Colour touches the severity name only *)

Lemma record_attr_set_levelname v r a :
  a <> "levelname" -> record_attr (set_levelname v r) a = record_attr r a.
Proof.
  intros Ha. unfold record_attr.
  destruct (String.eqb_spec a "name"); [done|].
  destruct (String.eqb_spec a "levelname"); [done|]. done.
Qed.

Lemma formatMessage_set_levelname v fmt r :
  "levelname" ∉ fields fmt ->
  formatMessage fmt (set_levelname v r) = formatMessage fmt r.
Proof.
  induction fmt as [|[s|a] fmt IH]; cbn [formatMessage fields]; intros Hn; [done| |].
  - by rewrite IH.
  - apply not_elem_of_cons in Hn as [Ha Hn].
    rewrite IH by done. rewrite record_attr_set_levelname by done. done.
Qed.

(** X14. A format that does not ask for [levelname] gives the same result
    under [ColoredFormatter] as under the plain formatter, text or
    exception: colour reaches the output through that attribute only. *)
Theorem colour_only_through_levelname (fmt : list piece) (r : LogRecord) :
  "levelname" ∉ fields fmt ->
  fst (ColoredFormatter_format fmt r) = fst (Formatter_format fmt r).
Proof.
  intros Hn.
  unfold ColoredFormatter_format, Formatter_format, bind, get_self, update, ret, raise.
  destruct r as [nm no lv ms md fn ln me env ex].
  cbn -[dict_get COLORS formatMessage].
  destruct (dict_get COLORS lv) as [color|]; cbn -[formatMessage].
  - match goal with
    | |- context [formatMessage fmt ?x] =>
        change x with
          (set_levelname (color ++ lv ++ RESET)
             (set_message ms (mkLogRecord nm no lv ms md fn ln me env ex)))
    end.
    rewrite formatMessage_set_levelname by done. cbn -[formatMessage].
    by destruct (formatMessage fmt _).
  - by destruct (formatMessage fmt _).
Qed.

Lemma colour_only_through_levelname_witness :
  fst (ColoredFormatter_format [Field "name"; Lit ": "; Field "message"] info_record)
  = Ok "app: started".
Proof.
  rewrite colour_only_through_levelname.
  - reflexivity.
  - cbn. rewrite !not_elem_of_cons. split_and!; try discriminate. apply not_elem_of_nil.
Defined.



(** ** The JSON object *)

Lemma merge_lookup (extra : list (string * jvalue)) (base : gmap string jvalue) k :
  NoDup extra.*1 ->
  (forall v, (k, v) ∈ extra ->
     fold_left (fun d kv => <[kv.1 := kv.2]> d) extra base !! k = Some v) /\
  (k ∉ extra.*1 ->
     fold_left (fun d kv => <[kv.1 := kv.2]> d) extra base !! k = base !! k).
Proof.
  revert base. induction extra as [|[k0 v0] extra IH]; intros base Hnd.
  - split; [intros v Hv; by apply elem_of_nil in Hv|done].
  - cbn in Hnd. apply NoDup_cons in Hnd as [Hk0 Hnd]. cbn [fold_left fst snd].
    destruct (IH (<[k0:=v0]> base) Hnd) as [IH1 IH2]. split.
    + intros v Hv. apply elem_of_cons in Hv as [[= -> ->]|Hv].
      * rewrite IH2 by done. apply lookup_insert_eq.
      * by apply IH1.
    + intros Hn. cbn in Hn. apply not_elem_of_cons in Hn as [Hne Hn].
      rewrite IH2 by done. by rewrite lookup_insert_ne.
Qed.



End FormatterOutput.

(** * The registry of managers *)

Module LoggerRegistry.
Import Logger LoggerFacts LogLevel.
Local Open Scope string_scope.

(** ** Keys and instances *)

Lemma list_ascii_of_string_app (a b : string) :
  list_ascii_of_string (a ++ b) = (list_ascii_of_string a ++ list_ascii_of_string b)%list.
Proof.
  induction a as [|c a IH]; [done|].
  change (list_ascii_of_string (String c a ++ b))
    with (c :: list_ascii_of_string (a ++ b)).
  by rewrite IH.
Qed.

Lemma append_inv_tail (a b t : string) : a ++ t = b ++ t -> a = b.
Proof.
  intros H. apply (f_equal list_ascii_of_string) in H.
  rewrite !list_ascii_of_string_app in H. apply app_inv_tail in H.
  apply (f_equal string_of_list_ascii) in H.
  by rewrite !string_of_list_ascii_of_string in H.
Qed.

Lemma instance_key_same_environment c1 c2 :
  environment c1 = environment c2 ->
  instance_key c1 = instance_key c2 <-> name c1 = name c2.
Proof.
  intros He. unfold instance_key. rewrite He. split.
  - apply append_inv_tail.
  - by intros ->.
Qed.

(** X17. Two construction requests of one run (no reset in between) that
    both return an instance return the same one exactly when their keys,
    name + "_" + environment, are the same string; for one environment that
    is exactly when the names are equal. *)
Theorem instances_follow_keys (requests : list (LogConfig * bool)) (rt : Runtime) :
  wf rt ->
  forall n1 n2 c1 ok1 c2 ok2 i1 i2,
    requests !! n1 = Some (c1, ok1) ->
    requests !! n2 = Some (c2, ok2) ->
    fst (construct_all requests rt) !! n1 = Some (Ok i1) ->
    fst (construct_all requests rt) !! n2 = Some (Ok i2) ->
    (i1 = i2 <-> instance_key c1 = instance_key c2) /\
    (environment c1 = environment c2 -> (i1 = i2 <-> name c1 = name c2)).
Proof.
  intros Hwf n1 n2 c1 ok1 c2 ok2 i1 i2 H1 H2 R1 R2.
  destruct (construct_all_spec requests rt Hwf) as ([_ Hinj] & _ & Hres).
  pose proof (Hres _ _ _ _ H1 R1) as K1.
  pose proof (Hres _ _ _ _ H2 R2) as K2.
  assert (i1 = i2 <-> instance_key c1 = instance_key c2) as Hiff.
  { split; [intros ->; eauto|intros E; rewrite E in K1; congruence]. }
  split; [done|]. intros He. rewrite Hiff. by apply instance_key_same_environment.
Qed.

Lemma instances_follow_keys_witness :
  let requests := [(LogConfig_for "app1" "development", true);
                   (LogConfig_for "app2" "development", true)] in
  fst (construct_all requests start) = [Ok 0%nat; Ok 1%nat] /\
  (0%nat = 1%nat <-> "app1" = "app2").
Proof.
  intros requests. split; [vm_compute; reflexivity|].
  pose proof (instances_follow_keys requests start wf_start 0 1 _ _ _ _ 0 1
                eq_refl eq_refl)%nat as H.
  destruct H as [_ H]; [vm_compute; reflexivity..|].
  exact (H eq_refl).
Defined.

(** ** After a reset *)

(** X18. After [reset_instances] the first request builds a new object,
    also for an identity that had an instance: the instance it returns was
    not registered before the reset. *)
Theorem reset_forgets_instances (cfg : LogConfig) (ok : bool) (rt : Runtime) :
  wf rt ->
  let r := fst (LoggerManager cfg ok (exec reset_instances rt)) in
  (ok = true -> r = Ok (length (heap rt))) /\
  forall j, r = Ok j ->
    j = length (heap rt) /\
    forall key i, _instances rt !! key = Some i -> i <> j.
Proof.
  intros [Hlt _] r. subst r.
  unfold LoggerManager, __new__, __init__, reset_instances, exec, bind, get_self,
    update, ret, raise. cbn. rewrite lookup_empty. cbn.
  rewrite lookup_app_r by lia. rewrite Nat.sub_diag. cbn.
  split.
  - by intros ->.
  - intros j Hj. assert (j = length (heap rt)) as ->.
    { destruct ok; cbn in Hj; congruence. }
    split; [done|]. intros key i Hi. apply Hlt in Hi. lia.
Qed.

Lemma reset_forgets_instances_witness :
  fst (LoggerManager (LogConfig_for "svc" "prod") true
         (exec reset_instances (snd (LoggerManager (LogConfig_for "svc" "prod") true start))))
  = Ok 1%nat.
Proof.
  refine (proj1 (reset_forgets_instances (LogConfig_for "svc" "prod") true
            (snd (LoggerManager (LogConfig_for "svc" "prod") true start)) _) eq_refl).
  apply LoggerManager_spec, wf_start.
Defined.

(** ** A set-up that raised *)

(** X19. When [_setup_logging] raises, the new instance stays registered
    under its key, with the configuration of the request but not
    initialised; the next request for that key gets the same object and
    initialises it with its own configuration. *)
Theorem failed_setup_is_retried (c1 c2 : LogConfig) (rt : Runtime) :
  wf rt ->
  _instances rt !! instance_key c1 = None ->
  instance_key c2 = instance_key c1 ->
  let i := length (heap rt) in
  let rt1 := snd (LoggerManager c1 false rt) in
  let rt2 := snd (LoggerManager c2 true rt1) in
  fst (LoggerManager c1 false rt) = Raise OSError /\
  _instances rt1 !! instance_key c1 = Some i /\
  heap rt1 !! i = Some (mkManager (Some c1) false) /\
  fst (LoggerManager c2 true rt1) = Ok i /\
  heap rt2 !! i = Some (mkManager (Some c2) true).
Proof.
  intros [Hlt _] Hnew Hkey i rt1 rt2. subst rt2 rt1 i.
  unfold LoggerManager, __new__, __init__, bind, get_self, update, ret, raise.
  rewrite Hkey, Hnew. cbn.
  rewrite lookup_app_r by lia. rewrite Nat.sub_diag. cbn.
  rewrite lookup_insert_eq. cbn.
  assert (length (heap rt) < length (heap rt ++ [mkManager None false]))%nat as Hl
    by (rewrite length_app; cbn; lia).
  rewrite !list_lookup_insert_eq by (rewrite ?length_insert; done). cbn.
  rewrite !list_lookup_insert_eq by (rewrite ?length_insert; done).
  done.
Qed.

Lemma failed_setup_is_retried_witness :
  fst (LoggerManager (LogConfig_for "a" "b_c") true
         (snd (LoggerManager (LogConfig_for "a_b" "c") false start))) = Ok 0%nat.
Proof.
  refine (proj1 (proj2 (proj2 (proj2 (failed_setup_is_retried
            (LogConfig_for "a_b" "c") (LogConfig_for "a" "b_c") start wf_start _ _))))).
  - reflexivity.
  - reflexivity.
Defined.

(** ** Level names *)

Lemma upper_codes_lower c : upper_codes (Filters.lower c) = upper_codes c.
Proof. destruct c as [[] [] [] [] [] [] [] []]; vm_compute; reflexivity. Qed.

Lemma str_upper_lower s : str_upper (Filters.str_lower s) = str_upper s.
Proof.
  unfold str_upper, Filters.str_lower. rewrite list_ascii_of_string_of_list_ascii.
  induction (list_ascii_of_string s) as [|c l IH]; [done|].
  cbn [map flat_map]. by rewrite upper_codes_lower, IH.
Qed.

(** X20. [LogLevel.from_string] reads the name of a level back into its
    number, whatever the case of the letters, and always returns the number
    of one of the five levels: a name it does not know gives INFO. *)
Theorem from_string_reads_level_names :
  (forall l, from_string (getLevelName l) = level_value l) /\
  (forall s, from_string (Filters.str_lower s) = from_string s) /\
  (forall s, exists l, from_string s = level_value l) /\
  (forall s, (forall l, str_upper s <> codes (getLevelName l)) -> from_string s = 20).
Proof.
  split_and!.
  - intros []; vm_compute; reflexivity.
  - intros s. unfold from_string. by rewrite str_upper_lower.
  - intros s. unfold from_string.
    repeat case_decide; [by exists DEBUG|by exists INFO|by exists WARNING|
                         by exists ERROR|by exists CRITICAL|by exists INFO].
  - intros s Hs. unfold from_string.
    pose proof (Hs DEBUG). pose proof (Hs WARNING). pose proof (Hs ERROR).
    pose proof (Hs CRITICAL). repeat case_decide; done.
Qed.

Lemma from_string_reads_level_names_witness :
  from_string "verbose" = 20.
Proof.
  apply (proj2 (proj2 (proj2 from_string_reads_level_names))).
  intros []; vm_compute; discriminate.
Defined.

End LoggerRegistry.

(** * Properties of the middleware helpers *)

Module MiddlewareFacts.
Import Filters FiltersFacts Middleware.

Local Open Scope string_scope.
Local Open Scope list_scope.

(** ** The client address *)

Lemma lstrip_spec s :
  exists ws, all_in is_space ws /\ s = ws ++ lstrip s /\ stops is_space (lstrip s).
Proof.
  induction s as [|c s (ws & Hws & Hs & Hstop)]; cbn [lstrip].
  - exists []. split_and!; [constructor|done|done].
  - destruct (is_space c) eqn:Hc.
    + exists (c :: ws). split_and!; [by constructor|by rewrite Hs at 1|done].
    + exists []. split_and!; [constructor|done|done].
Qed.

Lemma rstrip_spec s :
  exists ws, all_in is_space ws /\ s = rstrip s ++ ws /\ stops is_space (rev (rstrip s)).
Proof.
  unfold rstrip. destruct (lstrip_spec (rev s)) as (ws & Hws & Hs & Hstop).
  exists (rev ws). split_and!.
  - by apply Forall_rev.
  - apply (f_equal (@rev _)) in Hs. by rewrite rev_involutive, rev_app_distr in Hs.
  - by rewrite rev_involutive.
Qed.

Lemma rstrip_keeps_start s : stops is_space s -> stops is_space (rstrip s).
Proof.
  intros Hs. destruct (rstrip_spec s) as (ws & Hws & E & _).
  destruct (rstrip s) as [|c r] eqn:Er; [done|].
  rewrite E in Hs. exact Hs.
Qed.

Lemma first_field_spec s :
  (comma ∉ first_field s) /\
  exists tail, s = first_field s ++ tail /\ (tail = [] \/ exists t, tail = comma :: t).
Proof.
  induction s as [|c s (Hn & tail & Hs & Ht)]; cbn [first_field].
  - split; [apply not_elem_of_nil|]. exists []. split; [done|by left].
  - destruct (Ascii.eqb_spec c comma) as [->|Hc].
    + split; [apply not_elem_of_nil|]. exists (comma :: s). split; [done|right; eauto].
    + split; [by apply not_elem_of_cons|]. exists tail. split; [by rewrite Hs at 1|done].
Qed.

(** The address read from a forwarding header is the first field of the
    header without the white space around it. *)
Lemma client_ip_forwarded meta x :
  meta !! "HTTP_X_FORWARDED_FOR" = Some x ->
  x <> "" ->
  list_ascii_of_string (_get_client_ip meta)
  = strip (first_field (list_ascii_of_string x)).
Proof.
  intros Hx Hne. unfold _get_client_ip. rewrite Hx.
  destruct x as [|c x]; [done|]. apply list_ascii_of_string_of_list_ascii.
Qed.

Lemma strip_spec s :
  stops is_space (strip s) /\ stops is_space (rev (strip s)) /\
  exists ws1 ws2, all_in is_space ws1 /\ all_in is_space ws2 /\
    s = ws1 ++ strip s ++ ws2.
Proof.
  unfold strip.
  destruct (lstrip_spec s) as (ws1 & H1 & E1 & S1).
  destruct (rstrip_spec (lstrip s)) as (ws2 & H2 & E2 & S2).
  split_and!; [by apply rstrip_keeps_start|done|].
  exists ws1, ws2. split_and!; [done|done|]. by rewrite <- E2.
Qed.

Lemma elem_of_strip c s : c ∈ strip s -> c ∈ s.
Proof.
  intros Hc. destruct (strip_spec s) as (_ & _ & ws1 & ws2 & _ & _ & E).
  rewrite E. apply elem_of_app. right. apply elem_of_app. by left.
Qed.

(** X21. When the request carries a non-empty X-Forwarded-For header,
    [_get_client_ip] answers from that header alone: the answer is the text
    before the first comma of the header, without the white space at its two
    ends.  So it holds no comma, neither starts nor ends with white space,
    and REMOTE_ADDR plays no part. *)
Theorem client_ip_is_the_first_forwarded_address (meta : gmap string string) (x : string) :
  meta !! "HTTP_X_FORWARDED_FOR" = Some x ->
  x <> "" ->
  let ip := list_ascii_of_string (_get_client_ip meta) in
  (comma ∉ ip) /\
  stops is_space ip /\
  stops is_space (rev ip) /\
  exists ws1 ws2 tail,
    all_in is_space ws1 /\ all_in is_space ws2 /\
    list_ascii_of_string x = (ws1 ++ ip ++ ws2) ++ tail /\
    (tail = [] \/ exists t, tail = comma :: t).
Proof.
  intros Hx Hne ip. unfold ip. rewrite (client_ip_forwarded meta x Hx Hne).
  destruct (first_field_spec (list_ascii_of_string x)) as (Hn & tail & E & Ht).
  destruct (strip_spec (first_field (list_ascii_of_string x)))
    as (S1 & S2 & ws1 & ws2 & H1 & H2 & E').
  split_and!; [|done|done|].
  - intros Hc. by apply Hn, elem_of_strip.
  - exists ws1, ws2, tail. split_and!; [done|done| |done].
    by rewrite <- E'.
Qed.

Lemma client_ip_is_the_first_forwarded_address_witness :
  let meta : gmap string string :=
    <["HTTP_X_FORWARDED_FOR" := " 10.0.0.1 , 10.0.0.2"]>
      (<["REMOTE_ADDR" := "127.0.0.1"]> ∅) in
  _get_client_ip meta = "10.0.0.1" /\
  comma ∉ list_ascii_of_string (_get_client_ip meta).
Proof.
  intros meta. split; [reflexivity|].
  apply (client_ip_is_the_first_forwarded_address meta " 10.0.0.1 , 10.0.0.2").
  - reflexivity.
  - discriminate.
Defined.

(** ** The integration tables *)

Lemma starts_with_comparable a b s :
  starts_with a s = true -> starts_with b s = true ->
  starts_with a b = true \/ starts_with b a = true.
Proof.
  revert b s. induction a as [|x a IH]; intros b s Ha Hb; [by left|].
  destruct b as [|y b]; [by right|].
  destruct s as [|c s]; [done|]. cbn in Ha, Hb |- *.
  apply andb_true_iff in Ha as [Hx Ha]. apply andb_true_iff in Hb as [Hy Hb].
  apply Ascii.eqb_eq in Hx, Hy. subst x y. rewrite Ascii.eqb_refl. cbn.
  eauto.
Qed.

Lemma startswith_comparable path p q :
  startswith path p = true -> startswith path q = true ->
  startswith q p = true \/ startswith p q = true.
Proof. unfold startswith. intros Hp Hq. by destruct (starts_with_comparable _ _ _ Hp Hq); [left|right]. Qed.

Lemma elem_of_rev {A} (x : A) (l : list A) : x ∈ rev l <-> x ∈ l.
Proof. rewrite !list_elem_of_In. symmetry. apply in_rev. Qed.

Lemma get_integration_type_first types path prefix t :
  (prefix, t) ∈ types ->
  startswith path prefix = true ->
  (forall q u, (q, u) ∈ types -> startswith path q = true -> q = prefix /\ u = t) ->
  _get_integration_type types path = t.
Proof.
  induction types as [|[q u] types IH]; intros Hin Hp Hall.
  - by apply elem_of_nil in Hin.
  - cbn [_get_integration_type]. destruct (startswith path q) eqn:Hq.
    + by destruct (Hall q u (list_elem_of_here _ _) Hq).
    + apply elem_of_cons in Hin as [[= -> ->]|Hin]; [congruence|].
      apply IH; [done|done|]. intros q' u' Hin'. apply Hall. by apply list_elem_of_further.
Qed.

(** X22. With the default tables the type of a path does not depend on the
    order of the dictionary: no default prefix is a prefix of another, so a
    path starts with at most one of them, and [_get_integration_type]
    returns the type of that one. *)
Theorem default_integration_type_is_unambiguous (path prefix t : string) :
  (prefix, t) ∈ DEFAULT_INTEGRATION_TYPES ->
  startswith path prefix = true ->
  _get_integration_type DEFAULT_INTEGRATION_TYPES path = t /\
  _get_integration_type (rev DEFAULT_INTEGRATION_TYPES) path = t /\
  _is_integration_endpoint DEFAULT_MONITORED_PATHS path = true.
Proof.
  intros Hin Hp.
  assert (Hall : forall q u, (q, u) ∈ DEFAULT_INTEGRATION_TYPES ->
             startswith path q = true -> q = prefix /\ u = t).
  { intros q u Hq Hpq.
    destruct (startswith_comparable path prefix q Hp Hpq) as [H|H];
      unfold DEFAULT_INTEGRATION_TYPES in Hin, Hq;
      repeat (apply elem_of_cons in Hin as [[= -> ->]|Hin]);
      try (by apply elem_of_nil in Hin);
      repeat (apply elem_of_cons in Hq as [[= -> ->]|Hq]);
      try (by apply elem_of_nil in Hq);
      first [done | by vm_compute in H]. }
  split_and!.
  - by apply (get_integration_type_first _ path prefix t).
  - apply (get_integration_type_first _ path prefix t); [by apply elem_of_rev|done|].
    intros q u Hq. apply Hall. by apply elem_of_rev in Hq.
  - unfold _is_integration_endpoint. apply existsb_exists. exists prefix. split; [|done].
    unfold DEFAULT_INTEGRATION_TYPES in Hin. unfold DEFAULT_MONITORED_PATHS.
    repeat (apply elem_of_cons in Hin as [[= -> ->]|Hin]);
      try (by apply elem_of_nil in Hin); cbn; tauto.
Qed.

Lemma default_integration_type_is_unambiguous_witness :
  _get_integration_type DEFAULT_INTEGRATION_TYPES "/webhook/stripe/" = "webhook" /\
  _get_integration_type (rev DEFAULT_INTEGRATION_TYPES) "/webhook/stripe/" = "webhook" /\
  _is_integration_endpoint DEFAULT_MONITORED_PATHS "/webhook/stripe/" = true.
Proof.
  apply (default_integration_type_is_unambiguous "/webhook/stripe/" "/webhook/" "webhook").
  - unfold DEFAULT_INTEGRATION_TYPES. do 4 apply list_elem_of_further. apply list_elem_of_here.
  - reflexivity.
Defined.

(** X23. With the default tables a monitored path has the type "unknown"
    exactly when it is under /api/integrations/, the one monitored prefix
    without a type; and a path that is not monitored has the type
    "unknown" too. *)
Theorem monitored_path_without_type (path : string) :
  _is_integration_endpoint DEFAULT_MONITORED_PATHS path
  = negb (String.eqb (_get_integration_type DEFAULT_INTEGRATION_TYPES path) "unknown")
    || startswith path "/api/integrations/".
Proof.
  unfold _is_integration_endpoint, DEFAULT_MONITORED_PATHS, DEFAULT_INTEGRATION_TYPES.
  cbn [existsb _get_integration_type].
  repeat match goal with
         | |- context [startswith path ?p] =>
             generalize (startswith path p); intros []
         end; reflexivity.
Qed.

(** ** The request information *)

Lemma info_keys :
  info_key "HTTP_X_WEBHOOK_ID" = "x_webhook_id" /\
  info_key "HTTP_X_REQUEST_ID" = "x_request_id" /\
  info_key "HTTP_X_CORRELATION_ID" = "x_correlation_id" /\
  info_key "HTTP_AUTHORIZATION" = "authorization" /\
  info_key "HTTP_X_API_KEY" = "x_api_key".
Proof. by vm_compute. Qed.

Lemma extract_request_info_unfold meta :
  _extract_request_info meta =
  let put (key : string) (value : option string) (info : gmap string string) :=
    match value with Some v => <[key := v]> info | None => info end in
  put "x_api_key" (const "***" <$> header_value meta "HTTP_X_API_KEY")
    (put "authorization" (const "***" <$> header_value meta "HTTP_AUTHORIZATION")
       (put "x_correlation_id" (header_value meta "HTTP_X_CORRELATION_ID")
          (put "x_request_id" (header_value meta "HTTP_X_REQUEST_ID")
             (put "x_webhook_id" (header_value meta "HTTP_X_WEBHOOK_ID") ∅)))).
Proof.
  destruct info_keys as (K1 & K2 & K3 & K4 & K5).
  unfold _extract_request_info, relevant_headers, header_value. cbn [fold_left].
  rewrite K1, K2, K3, K4, K5.
  change (str_in "AUTHORIZATION" "HTTP_X_WEBHOOK_ID" || str_in "API_KEY" "HTTP_X_WEBHOOK_ID") with false.
  change (str_in "AUTHORIZATION" "HTTP_X_REQUEST_ID" || str_in "API_KEY" "HTTP_X_REQUEST_ID") with false.
  change (str_in "AUTHORIZATION" "HTTP_X_CORRELATION_ID" || str_in "API_KEY" "HTTP_X_CORRELATION_ID") with false.
  change (str_in "AUTHORIZATION" "HTTP_AUTHORIZATION" || str_in "API_KEY" "HTTP_AUTHORIZATION") with true.
  change (str_in "AUTHORIZATION" "HTTP_X_API_KEY" || str_in "API_KEY" "HTTP_X_API_KEY") with true.
  cbv zeta.
  destruct (meta !! "HTTP_X_WEBHOOK_ID") as [[|? ?]|];
  destruct (meta !! "HTTP_X_REQUEST_ID") as [[|? ?]|];
  destruct (meta !! "HTTP_X_CORRELATION_ID") as [[|? ?]|];
  destruct (meta !! "HTTP_AUTHORIZATION") as [[|? ?]|];
  destruct (meta !! "HTTP_X_API_KEY") as [[|? ?]|]; reflexivity.
Qed.

Ltac lookup_keys :=
  repeat first [ rewrite lookup_insert_eq
               | rewrite lookup_insert_ne by discriminate
               | rewrite lookup_empty ];
  reflexivity.

Ltac in_keys :=
  repeat first [ apply list_elem_of_here | apply list_elem_of_further ].

(** X24. [_extract_request_info] never copies a credential: under the keys
    authorization and x_api_key the result holds the three stars, whatever
    the header says, and only when the header is there and not empty; the
    three identifier headers are copied as they are under their lower-case
    names without the http_ prefix; and the result has no other key. *)
Theorem request_info_hides_credentials (meta : gmap string string) :
  let info := _extract_request_info meta in
  info !! "authorization" = const "***" <$> header_value meta "HTTP_AUTHORIZATION" /\
  info !! "x_api_key" = const "***" <$> header_value meta "HTTP_X_API_KEY" /\
  info !! "x_webhook_id" = header_value meta "HTTP_X_WEBHOOK_ID" /\
  info !! "x_request_id" = header_value meta "HTTP_X_REQUEST_ID" /\
  info !! "x_correlation_id" = header_value meta "HTTP_X_CORRELATION_ID" /\
  forall key, is_Some (info !! key) ->
    key ∈ ["x_webhook_id"; "x_request_id"; "x_correlation_id"; "authorization"; "x_api_key"].
Proof.
  cbv zeta. rewrite extract_request_info_unfold. cbv zeta.
  destruct (header_value meta "HTTP_X_WEBHOOK_ID");
  destruct (header_value meta "HTTP_X_REQUEST_ID");
  destruct (header_value meta "HTTP_X_CORRELATION_ID");
  destruct (header_value meta "HTTP_AUTHORIZATION");
  destruct (header_value meta "HTTP_X_API_KEY"); cbn [fmap option_fmap option_map const];
  (split_and!; [lookup_keys..|]);
  intros key [v Hv];
  repeat (apply lookup_insert_Some in Hv as [[<- _]|[_ Hv]]; [in_keys|]);
  by rewrite lookup_empty in Hv.
Qed.

End MiddlewareFacts.
